(** * build_book.py: the chapter parser and the HTML assembler

    A shallow embedding of [parse_chapter], [typographic_substitutions] and
    [build_html] of [build_book.py], and the properties of the design
    document that concern them.

    Python [str] values are sequences of Unicode code points: a character
    is an [N], a string a [list N], so that the em dash U+2014 is one
    character, as in the program. *)

From Stdlib Require Import String Ascii.
From Stdlib Require Import NArith Arith Bool Lia List Permutation.
Import ListNotations.

(** ** Python strings *)

Module Py.

Definition char := N.
Definition str := list char.

(** An ASCII literal as a [str]. *)
Definition lit (s : string) : str := map N_of_ascii (list_ascii_of_string s).
Arguments lit s%_string.

Definition NL : str := [10%N].
Definition SP : str := [32%N].
Definition QUOTE : str := [34%N].

Definition char_eqb (a b : char) : bool := N.eqb a b.

Fixpoint str_eqb (a b : str) : bool :=
  match a, b with
  | [], [] => true
  | x :: a', y :: b' => char_eqb x y && str_eqb a' b'
  | _, _ => false
  end.

(** [str.isspace] on one character, which is also the class [\s] of [re]
    on [str] patterns: the characters of bidirectional type WS, B or S and
    of category Zs. *)
Definition isspace (c : char) : bool :=
  ((9 <=? c) && (c <=? 13) || (28 <=? c) && (c <=? 32)
   || (c =? 133) || (c =? 160) || (c =? 5760)
   || (8192 <=? c) && (c <=? 8202)
   || (c =? 8232) || (c =? 8233) || (c =? 8239) || (c =? 8287)
   || (c =? 12288))%N.

(** First code points of the runs of ten decimal digits (category Nd) of
    Unicode 14.0, the table of CPython 3.11. *)
Definition decimal_zeros : list N :=
  [48; 1632; 1776; 1984; 2406; 2534; 2662; 2790; 2918; 3046; 3174; 3302;
   3430; 3558; 3664; 3792; 3872; 4160; 4240; 6112; 6160; 6470; 6608; 6784;
   6800; 6992; 7088; 7232; 7248; 42528; 43216; 43264; 43472; 43504; 43600;
   44016; 65296; 66720; 68912; 69734; 69872; 69942; 70096; 70384; 70736;
   70864; 71248; 71360; 71472; 71904; 72016; 72784; 73040; 73120; 92768;
   92864; 93008; 120782; 120792; 120802; 120812; 120822; 123200; 123632;
   125264; 130032]%N.

(** [str.isdecimal] on one character, which is also the class [\d] of
    [re] on [str] patterns. *)
Definition isdecimal (c : char) : bool :=
  existsb (fun z => (z <=? c) && (c <? z + 10))%N decimal_zeros.

(** The list without its longest prefix of elements that satisfy [p]. *)
Fixpoint dropwhile {A : Type} (p : A -> bool) (s : list A) : list A :=
  match s with
  | [] => []
  | c :: s' => if p c then dropwhile p s' else s
  end.

(** [s.lstrip()], [s.rstrip()] and [s.strip()]. *)
Definition lstrip (s : str) : str := dropwhile isspace s.
Definition rstrip (s : str) : str := rev (dropwhile isspace (rev s)).
Definition strip (s : str) : str := rstrip (lstrip s).

(** [s.split(sep)] for a separator [sep] of one character: never empty. *)
Fixpoint split (s : str) (sep : char) : list str :=
  match s with
  | [] => [[]]
  | c :: s' =>
      if char_eqb c sep then [] :: split s' sep
      else match split s' sep with
           | l :: ls => (c :: l) :: ls
           | [] => [[c]]
           end
  end.

(** [sep.join(xs)]. *)
Fixpoint join (sep : str) (xs : list str) : str :=
  match xs with
  | [] => []
  | [x] => x
  | x :: xs' => x ++ sep ++ join sep xs'
  end.

(** [s.replace(c, r)] for a pattern [c] of one character. *)
Definition replace_char (c : char) (r : str) (s : str) : str :=
  flat_map (fun x => if char_eqb x c then r else [x]) s.

(** [s.replace(a + b, r)] for a pattern of two characters: the occurrences
    are taken from the left and do not overlap. *)
Fixpoint replace2 (a b : char) (r : str) (s : str) : str :=
  match s with
  | [] => []
  | x :: s' =>
      match s' with
      | y :: s'' =>
          if char_eqb x a && char_eqb y b then r ++ replace2 a b r s''
          else x :: replace2 a b r s'
      | [] => [x]
      end
  end.

(** A string neither starts nor ends with white space. *)
Definition trimmed (s : str) : Prop :=
  (forall c, hd_error s = Some c -> isspace c = false)
  /\ (forall c, hd_error (rev s) = Some c -> isspace c = false).

(** [sub in s]. *)
Definition contains (sub s : str) : Prop :=
  exists pre post, s = pre ++ sub ++ post.

End Py.

Import Py.

(** ** Results of partial computations

    A Python expression either yields a value or raises; [lines[i]] raises
    [IndexError] out of range.  A [while] loop is run on fuel, and
    [Diverged] is the result of a loop that exhausts it. *)

Inductive result (A : Type) : Type :=
| Ok (a : A)
| IndexError
| Diverged.

Arguments Ok {A} a.
Arguments IndexError {A}.
Arguments Diverged {A}.

Definition bind {A B : Type} (r : result A) (k : A -> result B) : result B :=
  match r with
  | Ok a => k a
  | IndexError => IndexError
  | Diverged => Diverged
  end.

Notation "x <- r ;; k" := (bind r (fun x => k))
  (at level 61, r at next level, right associativity).

(** [xs[i]] for [0 <= i]. *)
Definition getitem {A : Type} (xs : list A) (i : nat) : result A :=
  match nth_error xs i with
  | Some x => Ok x
  | None => IndexError
  end.

(** ** The content elements

    [parse_chapter] builds pairs [(kind, text)] with [kind] one of
    ['heading'], ['subtitle'], ['paragraph'] and ['scene_break'], the last
    with [None] for text. *)

Inductive element : Type :=
| Heading (text : str)
| Subtitle (text : str)
| SceneBreak
| Paragraph (text : str).

(** ** [parse_chapter] *)

Module Parser.

Definition CHAPTER : str := lit "CHAPTER".
Definition SCENE : str := lit "* * *".

Fixpoint strip_prefix (p s : str) : option str :=
  match p, s with
  | [], _ => Some s
  | a :: p', b :: s' => if char_eqb a b then strip_prefix p' s' else None
  | _ :: _, [] => None
  end.

(** A match of [CHAPTER], one or more characters of the class [ws], one or
    more of the class [dg], at the start of [line]: what [re.match] decides
    for such a pattern.  The classes do not meet, so that the longest run
    of [ws] is the only one a digit may follow. *)
Definition chapter_pattern (ws dg : char -> bool) (line : str) : bool :=
  match strip_prefix CHAPTER line with
  | Some rest =>
      match rest with
      | c :: rest' =>
          ws c && match dropwhile ws rest' with
                  | d :: _ => dg d
                  | [] => false
                  end
      | [] => false
      end
  | None => false
  end.

(** [re.match(r'^CHAPTER\s+\d+', line)] as a truth value. *)
Definition heading_re (line : str) : bool :=
  chapter_pattern isspace isdecimal line.

(** [line.strip() == ''] *)
Definition is_blank (line : str) : bool := str_eqb (strip line) [].

(** The two lists the function appends to. *)
Record state : Type := mkState {
  elements : list element;
  para_lines : list str
}.

(** The closure [flush_para]. *)
Definition flush_para (st : state) : state :=
  match para_lines st with
  | [] => st
  | _ :: _ =>
      mkState (elements st ++ [Paragraph (join SP (para_lines st))]) []
  end.

(** [while i < len(lines) and lines[i].strip() == '': i += 1] *)
Fixpoint skip_blank (fuel : nat) (lines : list str) (i : nat) : result nat :=
  match fuel with
  | O => Diverged
  | S fuel' =>
      if i <? length lines then
        l <- getitem lines i ;;
        if is_blank l then skip_blank fuel' lines (i + 1) else Ok i
      else Ok i
  end.

(** One turn of the second loop, on the line [l] = [lines[i]]. *)
Definition body_step (st : state) (l : str) : state :=
  let stripped := strip l in
  if str_eqb stripped SCENE then
    let st' := flush_para st in
    mkState (elements st' ++ [SceneBreak]) (para_lines st')
  else if str_eqb stripped [] then
    flush_para st
  else
    mkState (elements st) (para_lines st ++ [stripped]).

(** [while i < len(lines): ...; i += 1] *)
Fixpoint body_loop (fuel : nat) (lines : list str) (i : nat) (st : state)
  : result state :=
  match fuel with
  | O => Diverged
  | S fuel' =>
      if i <? length lines then
        l <- getitem lines i ;;
        body_loop fuel' lines (i + 1) (body_step st l)
      else Ok st
  end.

(** The first block: the heading and the subtitle.  It returns the
    elements so far and the index [i]. *)
Definition header (fuel : nat) (lines : list str)
  : result (list element * nat) :=
  let elements := [] in
  let i := 0 in
  if i <? length lines then
    l <- getitem lines i ;;
    if heading_re l then
      let elements := elements ++ [Heading l] in
      let i := i + 1 in
      i <- skip_blank fuel lines i ;;
      if i <? length lines then
        s <- getitem lines i ;;
        Ok (elements ++ [Subtitle s], i + 1)
      else Ok (elements, i)
    else Ok (elements, i)
  else Ok (elements, i).

(** [parse_chapter] on the text read from the file, with fuel for its
    loops. *)
Definition parse_chapter_fuel (fuel : nat) (text : str)
  : result (list element) :=
  let lines := split text 10%N in
  hi <- header fuel lines ;;
  st <- body_loop fuel lines (snd hi) (mkState (fst hi) []) ;;
  Ok (elements (flush_para st)).

(** Each turn of a loop moves [i] one line on: one more unit of fuel than
    there are lines is enough. *)
Definition parse_chapter (text : str) : result (list element) :=
  parse_chapter_fuel (S (length (split text 10%N))) text.

End Parser.

Import Parser.

(** ** [typographic_substitutions] and [html.escape] *)

Module Typo.

Definition HYPHEN : char := 45%N.
Definition EM_DASH : char := 8212%N.

(** The pattern ['--']. *)
Definition HH : str := [HYPHEN; HYPHEN].

(** [text.replace('--', '—')] *)
Definition typographic_substitutions (text : str) : str :=
  replace2 HYPHEN HYPHEN [EM_DASH] text.

(** [html.escape(s)] of the standard library, with its default
    [quote=True]: five replacements in a row, the ampersand first. *)
Definition html_escape (s : str) : str :=
  let s := replace_char 38%N (lit "&amp;") s in
  let s := replace_char 60%N (lit "&lt;") s in
  let s := replace_char 62%N (lit "&gt;") s in
  let s := replace_char 34%N (lit "&quot;") s in
  let s := replace_char 39%N (lit "&#x27;") s in
  s.

End Typo.

Import Typo.

(** ** [build_html] *)

Module Assembler.

(** [<div class="cls">] *)
Definition div_open (cls : string) : str :=
  lit "<div class=" ++ QUOTE ++ lit cls ++ QUOTE ++ lit ">".

Definition DIV_CLOSE : str := lit "</div>" ++ NL.

Definition PREAMBLE : str :=
  lit "<!DOCTYPE html>" ++ NL ++ lit "<html lang=" ++ QUOTE ++ lit "en" ++ QUOTE
  ++ lit ">" ++ NL ++ lit "<head>" ++ NL ++ lit "<meta charset=" ++ QUOTE
  ++ lit "UTF-8" ++ QUOTE ++ lit ">" ++ NL ++ lit "<style>".

Definition STYLE_END : str :=
  lit "</style>" ++ NL ++ lit "</head>" ++ NL ++ lit "<body>" ++ NL.

Definition CLOSING : str := lit "</body>" ++ NL ++ lit "</html>" ++ NL.

Definition TITLE_PAGE_OPEN : str := div_open "title-page" ++ NL.
Definition CHAPTER_OPEN : str := div_open "chapter" ++ NL.

Definition book_title (title : str) : str :=
  lit "  " ++ div_open "book-title" ++ html_escape title ++ DIV_CLOSE.

Definition book_author (author : str) : str :=
  lit "  " ++ div_open "book-author" ++ html_escape author ++ DIV_CLOSE.

Definition chapter_heading (text : str) : str :=
  lit "  " ++ div_open "chapter-heading"
  ++ typographic_substitutions (html_escape text) ++ DIV_CLOSE.

Definition chapter_subtitle (text : str) : str :=
  lit "  " ++ div_open "chapter-subtitle"
  ++ typographic_substitutions (html_escape text) ++ DIV_CLOSE.

Definition SCENE_BREAK : str :=
  lit "  " ++ div_open "scene-break" ++ lit "* &ensp; * &ensp; *" ++ DIV_CLOSE.

Definition p_no_indent (escaped : str) : str :=
  lit "  <p class=" ++ QUOTE ++ lit "no-indent" ++ QUOTE ++ lit ">"
  ++ escaped ++ lit "</p>" ++ NL.

Definition p_indent (escaped : str) : str :=
  lit "  <p>" ++ escaped ++ lit "</p>" ++ NL.

(** The truth value of an optional string: [None] and [''] are false. *)
Definition truthy (o : option str) : bool :=
  match o with
  | Some (_ :: _) => true
  | _ => false
  end.

(** The variables the loops assign: the list [parts] and the flag
    [need_no_indent]. *)
Record state : Type := mkState {
  parts : list str;
  need_no_indent : bool
}.

(** [parts.append(s)] *)
Definition append (st : state) (s : str) : state :=
  mkState (parts st ++ [s]) (need_no_indent st).

(** One turn of [for kind, text in elements]. *)
Definition render_element (st : state) (e : element) : state :=
  match e with
  | Heading text =>
      let st := append st (chapter_heading text) in
      mkState (parts st) true
  | Subtitle text =>
      let st := append st (chapter_subtitle text) in
      mkState (parts st) true
  | SceneBreak =>
      let st := append st SCENE_BREAK in
      mkState (parts st) true
  | Paragraph text =>
      let escaped := typographic_substitutions (html_escape text) in
      if need_no_indent st then
        let st := append st (p_no_indent escaped) in
        mkState (parts st) false
      else
        append st (p_indent escaped)
  end.

(** One turn of [for elements in chapters]. *)
Definition render_chapter (st : state) (elements : list element) : state :=
  let st := append st CHAPTER_OPEN in
  let st := mkState (parts st) false in
  let st := fold_left render_element elements st in
  append st DIV_CLOSE.

(** The title page block. *)
Definition title_page (title author : option str) (parts : list str)
  : list str :=
  if truthy title || truthy author then
    let parts := parts ++ [TITLE_PAGE_OPEN] in
    let parts :=
      match title with
      | Some t => if truthy title then parts ++ [book_title t] else parts
      | None => parts
      end in
    let parts :=
      match author with
      | Some a => if truthy author then parts ++ [book_author a] else parts
      | None => parts
      end in
    parts ++ [DIV_CLOSE]
  else parts.

(** What [parts] holds when the loop over the chapters starts. *)
Definition head_parts (css : str) (title author : option str) : list str :=
  let parts := [] in
  let parts := parts ++ [PREAMBLE] in
  let parts := parts ++ [css] in
  let parts := parts ++ [STYLE_END] in
  title_page title author parts.

(** [build_html(chapters, title, author)], with the style sheet that
    [read_css_from_template] returns as the argument [css].  The flag is
    not bound before the first chapter; [flag0] stands for whatever the
    variable holds then. *)
Definition build_html_from (flag0 : bool) (css : str)
    (chapters : list (list element)) (title author : option str) : str :=
  let st := mkState (head_parts css title author) flag0 in
  let st := fold_left render_chapter chapters st in
  let st := append st CLOSING in
  concat (parts st).

Definition build_html (css : str) (chapters : list (list element))
    (title author : option str) : str :=
  build_html_from false css chapters title author.

End Assembler.

(** ** [read_css_from_template] *)

Module Template.

Definition STYLE_OPEN : str := lit "<style>".
Definition STYLE_CLOSE : str := lit "</style>".

(** A match of [(.*?)</style>] at the start of [s], as the group: the
    lazy star takes one more character, a newline too under [re.DOTALL],
    only when the closing tag does not match where it stands. *)
Fixpoint lazy_group (close s : str) : option str :=
  match strip_prefix close s with
  | Some _ => Some []
  | None =>
      match s with
      | [] => None
      | c :: s' =>
          match lazy_group close s' with
          | Some g => Some (c :: g)
          | None => None
          end
      end
  end.

(** A match of the whole pattern at the start of [s], as the group. *)
Definition match_style (s : str) : option str :=
  match strip_prefix STYLE_OPEN s with
  | Some rest => lazy_group STYLE_CLOSE rest
  | None => None
  end.

(** [re.search(r'<style>(.*?)</style>', content, re.DOTALL)]: the match
    at the leftmost place that has one, as [m.group(1)]. *)
Fixpoint search_style (content : str) : option str :=
  match match_style content with
  | Some g => Some g
  | None =>
      match content with
      | [] => None
      | _ :: content' => search_style content'
      end
  end.

(** [read_css_from_template], on the text [content] read from the file. *)
Definition read_css_from_template (content : str) : str :=
  match search_style content with
  | Some g => g
  | None => []
  end.

End Template.

(** ** [main]: from the chapter files to the document *)

Module Main.

(** [a <= b] on [str]: the order of the code points, the first difference
    deciding, a prefix first. *)
Fixpoint str_leb (a b : str) : bool :=
  match a, b with
  | [], _ => true
  | _ :: _, [] => false
  | x :: a', y :: b' =>
      if N.ltb x y then true
      else if N.eqb x y then str_leb a' b'
      else false
  end.

Fixpoint insert (x : str) (xs : list str) : list str :=
  match xs with
  | [] => [x]
  | y :: ys => if str_leb x y then x :: xs else y :: insert x ys
  end.

(** [sorted(xs)] on a list of [str]: the ascending list of the same
    strings, which is one list only, whatever the method. *)
Fixpoint sorted (xs : list str) : list str :=
  match xs with
  | [] => []
  | x :: xs' => insert x (sorted xs')
  end.

(** [[f(x) for x in xs]], the first failure ending it. *)
Fixpoint map_result {A B : Type} (f : A -> result B) (xs : list A)
  : result (list B) :=
  match xs with
  | [] => Ok []
  | x :: xs' =>
      y <- f x ;;
      ys <- map_result f xs' ;;
      Ok (y :: ys)
  end.

(** How [main] ends: [sys.exit(status)], or the markup it hands to
    [HTML(string=...).write_pdf]. *)
Inductive outcome : Type :=
| SysExit (status : nat)
| WritePdf (html_content : str).

(** [main], from the paths [glob.glob] returned, in the order it returned
    them, the text [read f] of the file of path [f], the style sheet of the
    template and the two options of the command line.  What it prints is
    left out. *)
Definition main (css : str) (globbed : list str) (read : str -> str)
    (title author : option str) : result outcome :=
  let chapter_files := sorted globbed in
  match chapter_files with
  | [] => Ok (SysExit 1)
  | _ :: _ =>
      chapters <- map_result (fun f => parse_chapter (read f)) chapter_files ;;
      Ok (WritePdf (Assembler.build_html css chapters title author))
  end.

End Main.

(** * What the properties are stated with *)

(** ** The lines and the elements of a chapter *)

Module ParserSpec.

(** [stripped == '* * *'] *)
Definition is_scene (line : str) : bool := str_eqb (strip line) SCENE.

(** A line that goes to the accumulator. *)
Definition is_text (line : str) : bool :=
  negb (is_scene line) && negb (is_blank line).

(** The elements the second loop and the last flush add for the lines
    [ls], from the accumulator [acc]. *)
Definition run (acc : list str) (ls : list str) : list element :=
  elements (flush_para (fold_left body_step ls (mkState [] acc))).

Definition body (ls : list str) : list element := run [] ls.

(** The elements of a chapter, from its lines. *)
Definition parse_lines (lines : list str) : list element :=
  match lines with
  | [] => []
  | l0 :: rest =>
      if heading_re l0 then
        Heading l0 ::
          match dropwhile is_blank rest with
          | [] => []
          | s :: rest' => Subtitle s :: body rest'
          end
      else body lines
  end.

(** [line] starts with [CHAPTER], one or more characters of the class
    [ws], one or more of the class [dg]. *)
Definition matches_chapter (ws dg : char -> bool) (line : str) : Prop :=
  exists sp ds tl,
    line = CHAPTER ++ sp ++ ds ++ tl
    /\ sp <> [] /\ Forall (fun c => ws c = true) sp
    /\ ds <> [] /\ Forall (fun c => dg c = true) ds.

(** The pattern of the program: white space ([\s]) and decimal digits
    ([\d]). *)
Definition matches_heading (line : str) : Prop :=
  matches_chapter isspace isdecimal line.

(** The pattern as the design document words it: the literal word CHAPTER,
    one or more spaces, one or more decimal digits. *)
Definition spec_matches_heading (line : str) : Prop :=
  matches_chapter (fun c => char_eqb c 32%N) isdecimal line.

(** The body of a chapter, as the design document describes it: a blank
    line gives no element, a scene-break line gives [SceneBreak], and a
    longest run of consecutive other lines gives one [Paragraph], their
    stripped contents joined by single spaces. *)
Inductive Body : list str -> list element -> Prop :=
| Body_end : Body [] []
| Body_blank (l : str) (rest : list str) (els : list element) :
    is_blank l = true -> Body rest els -> Body (l :: rest) els
| Body_scene (l : str) (rest : list str) (els : list element) :
    is_scene l = true -> Body rest els -> Body (l :: rest) (SceneBreak :: els)
| Body_para (ls rest : list str) (els : list element) :
    ls <> [] ->
    Forall (fun l => is_text l = true) ls ->
    (forall l, hd_error rest = Some l -> is_text l = false) ->
    Body rest els ->
    Body (ls ++ rest) (Paragraph (join SP (map strip ls)) :: els).

(** A scene break or a paragraph: what the second loop emits. *)
Definition body_element (e : element) : Prop :=
  match e with
  | Heading _ | Subtitle _ => False
  | SceneBreak | Paragraph _ => True
  end.

End ParserSpec.

Import ParserSpec.

(** ** Pairs of hyphens *)

Module TypoSpec.

(** ['--' in s] as a truth value. *)
Fixpoint has_hh (s : str) : bool :=
  match s with
  | [] => false
  | x :: s' =>
      match s' with
      | y :: _ => (char_eqb x HYPHEN && char_eqb y HYPHEN) || has_hh s'
      | [] => false
      end
  end.

(** Each em dash written back as two hyphens. *)
Definition expand (s : str) : str := replace_char EM_DASH HH s.

End TypoSpec.

Import TypoSpec.

(** ** The markup of a chapter *)

Module AssemblerSpec.

Import Assembler.

(** An element sets the flag unless it is a paragraph, which clears it. *)
Definition sets_flag (e : element) : bool :=
  match e with
  | Paragraph _ => false
  | Heading _ | Subtitle _ | SceneBreak => true
  end.

(** The markup of one element, under the flag [suppress]. *)
Definition piece (suppress : bool) (e : element) : str :=
  match e with
  | Heading text => chapter_heading text
  | Subtitle text => chapter_subtitle text
  | SceneBreak => SCENE_BREAK
  | Paragraph text =>
      let escaped := typographic_substitutions (html_escape text) in
      if suppress then p_no_indent escaped else p_indent escaped
  end.

(** The flag when the loop comes to the element of index [k] of the
    chapter [els], the flag being [flag0] at the start: set exactly when
    the element before is a heading, a subtitle or a scene break. *)
Definition suppressed_from (flag0 : bool) (els : list element) (k : nat)
  : bool :=
  match k with
  | O => flag0
  | S j => match nth_error els j with
           | Some e => sets_flag e
           | None => false
           end
  end.

Definition suppressed (els : list element) (k : nat) : bool :=
  suppressed_from false els k.

(** The markup of the element of index [k] of a chapter. *)
Definition piece_at (flag0 : bool) (els : list element) (k : nat) : str :=
  match nth_error els k with
  | Some e => piece (suppressed_from flag0 els k) e
  | None => []
  end.

(** The markup of a chapter, element by element. *)
Definition chapter_parts (els : list element) : list str :=
  [CHAPTER_OPEN] ++ map (piece_at false els) (seq 0 (length els))
  ++ [DIV_CLOSE].

(** The chapter container of a chapter: what [build_html] adds for it to
    an empty [parts]. *)
Definition chapter_html (els : list element) : str :=
  concat (parts (render_chapter (mkState [] false) els)).

End AssemblerSpec.

(** ** Counting and collecting *)

Module ExtraSpec.

(** The texts of the paragraphs, in their order. *)
Fixpoint paragraph_texts (els : list element) : list str :=
  match els with
  | [] => []
  | Paragraph p :: els' => p :: paragraph_texts els'
  | _ :: els' => paragraph_texts els'
  end.

(** The number of scene breaks. *)
Fixpoint scene_breaks (els : list element) : nat :=
  match els with
  | [] => 0
  | SceneBreak :: els' => S (scene_breaks els')
  | _ :: els' => scene_breaks els'
  end.

(** The number of lines that hold the scene-break marker. *)
Definition scene_lines (ls : list str) : nat :=
  length (filter is_scene ls).

(** The characters of markup that [html.escape] replaces. *)
Definition markup_char (c : char) : bool :=
  (c =? 38)%N || (c =? 60)%N || (c =? 62)%N || (c =? 34)%N || (c =? 39)%N.

(** What [html.escape] puts for one character. *)
Definition escape_char (c : char) : str :=
  if (c =? 38)%N then lit "&amp;"
  else if (c =? 60)%N then lit "&lt;"
  else if (c =? 62)%N then lit "&gt;"
  else if (c =? 34)%N then lit "&quot;"
  else if (c =? 39)%N then lit "&#x27;"
  else [c].

(** The ascending lists, in the order of [str]. *)
Inductive Ascending : list str -> Prop :=
| Ascending_nil : Ascending []
| Ascending_one (x : str) : Ascending [x]
| Ascending_cons (x y : str) (ys : list str) :
    Main.str_leb x y = true -> Ascending (y :: ys) -> Ascending (x :: y :: ys).

End ExtraSpec.

Import ExtraSpec.

(** * Properties *)

(** ** Strings *)

Module PyFacts.

Lemma char_eqb_eq (a b : char) : char_eqb a b = true <-> a = b.
Proof. apply N.eqb_eq. Qed.

Lemma char_eqb_refl (a : char) : char_eqb a a = true.
Proof. apply N.eqb_refl. Qed.

Lemma char_eqb_neq (a b : char) : char_eqb a b = false <-> a <> b.
Proof. apply N.eqb_neq. Qed.

Lemma str_eqb_eq (a b : str) : str_eqb a b = true <-> a = b.
Proof.
  revert b; induction a as [|x a IH]; intros [|y b]; simpl;
    try (split; [discriminate | discriminate]); try tauto.
  rewrite andb_true_iff, char_eqb_eq, IH.
  split; [intros [-> ->]; reflexivity | intros H; inversion H; auto].
Qed.

Lemma str_eqb_refl (a : str) : str_eqb a a = true.
Proof. apply str_eqb_eq; reflexivity. Qed.

Lemma str_eqb_neq (a b : str) : str_eqb a b = false <-> a <> b.
Proof.
  destruct (str_eqb a b) eqn:E.
  - apply str_eqb_eq in E. split; [discriminate | contradiction].
  - split; [intros _ H | reflexivity].
    apply str_eqb_eq in H. congruence.
Qed.

Section Dropwhile.
Context {A : Type} (p : A -> bool).

Lemma dropwhile_head (s : list A) (c : A) (r : list A) :
  dropwhile p s = c :: r -> p c = false.
Proof.
  induction s as [|x s IH]; simpl; [discriminate|].
  destruct (p x) eqn:E; [exact IH|].
  intros H; inversion H; subst; exact E.
Qed.

Lemma dropwhile_split (s : list A) :
  exists pre, s = pre ++ dropwhile p s /\ Forall (fun x => p x = true) pre.
Proof.
  induction s as [|x s (pre & Hs & Hp)]; simpl.
  - exists []; auto.
  - destruct (p x) eqn:E.
    + exists (x :: pre); split; [simpl; congruence | auto].
    + exists []; auto.
Qed.

Lemma dropwhile_fixed (s : list A) :
  (forall c, hd_error s = Some c -> p c = false) -> dropwhile p s = s.
Proof.
  destruct s as [|x s]; simpl; [reflexivity|].
  intros H; rewrite (H x eq_refl); reflexivity.
Qed.

Lemma dropwhile_all (s : list A) :
  Forall (fun x => p x = true) s -> dropwhile p s = [].
Proof.
  induction 1 as [|x s Hx _ IH]; simpl; [reflexivity|].
  rewrite Hx; exact IH.
Qed.

Lemma dropwhile_app (pre s : list A) :
  Forall (fun x => p x = true) pre -> dropwhile p (pre ++ s) = dropwhile p s.
Proof.
  induction 1 as [|x pre Hx _ IH]; simpl; [reflexivity|].
  rewrite Hx; exact IH.
Qed.

Lemma In_dropwhile (s : list A) (x : A) : In x (dropwhile p s) -> In x s.
Proof.
  destruct (dropwhile_split s) as (pre & Hs & _).
  intros H; rewrite Hs; apply in_or_app; auto.
Qed.
End Dropwhile.

Lemma rstrip_prefix (s : str) :
  exists ws, s = rstrip s ++ ws /\ Forall (fun c => isspace c = true) ws.
Proof.
  unfold rstrip.
  destruct (dropwhile_split isspace (rev s)) as (pre & Hs & Hp).
  exists (rev pre); split.
  - rewrite <- rev_app_distr, <- Hs, rev_involutive; reflexivity.
  - apply Forall_rev; exact Hp.
Qed.

Lemma In_strip (s : str) (c : char) : In c (strip s) -> In c s.
Proof.
  unfold strip, lstrip; intros H.
  apply (In_dropwhile isspace).
  destruct (rstrip_prefix (dropwhile isspace s)) as (ws & Hs & _).
  rewrite Hs; apply in_or_app; auto.
Qed.

Lemma strip_trimmed (s : str) : trimmed (strip s).
Proof.
  unfold strip, lstrip; split; intros c Hc.
  - destruct (rstrip_prefix (dropwhile isspace s)) as (ws & Hs & _).
    destruct (rstrip (dropwhile isspace s)) as [|x r] eqn:E; [discriminate|].
    simpl in Hc; inversion Hc; subst x.
    simpl in Hs.
    apply (dropwhile_head isspace s _ _ Hs).
  - unfold rstrip in Hc; rewrite rev_involutive in Hc.
    destruct (dropwhile isspace (rev (dropwhile isspace s))) as [|x r] eqn:E;
      [discriminate|].
    simpl in Hc; inversion Hc; subst x.
    apply (dropwhile_head isspace _ _ _ E).
Qed.

Lemma trimmed_strip (s : str) : trimmed s -> strip s = s.
Proof.
  intros [Hh Hl]; unfold strip, lstrip, rstrip.
  rewrite (dropwhile_fixed isspace s Hh).
  rewrite (dropwhile_fixed isspace (rev s) Hl).
  apply rev_involutive.
Qed.

Lemma strip_fixed_iff (s : str) : strip s = s <-> trimmed s.
Proof.
  split; [intros <-; apply strip_trimmed | apply trimmed_strip].
Qed.

Lemma hd_error_app (a b : str) :
  a <> [] -> hd_error (a ++ b) = hd_error a.
Proof. destruct a; [congruence | reflexivity]. Qed.

Lemma hd_error_rev_app (a b : str) :
  b <> [] -> hd_error (rev (a ++ b)) = hd_error (rev b).
Proof.
  intros H; rewrite rev_app_distr; apply hd_error_app.
  intros E; apply H; rewrite <- (rev_involutive b), E; reflexivity.
Qed.

Lemma join_cons2 (sep x y : str) (xs : list str) :
  join sep (x :: y :: xs) = x ++ sep ++ join sep (y :: xs).
Proof. reflexivity. Qed.

Lemma join_nonempty (sep : str) (xs : list str) :
  xs <> [] -> Forall (fun x => x <> []) xs -> join sep xs <> [].
Proof.
  destruct xs as [|x [|y xs]]; intros Hne Hall; [congruence| |].
  - simpl; inversion Hall; assumption.
  - rewrite join_cons2; inversion Hall; subst.
    destruct x; [congruence | discriminate].
Qed.

(** Stripped, non-empty lines joined by single spaces: the text neither
    starts nor ends with white space. *)
Lemma join_trimmed (xs : list str) :
  Forall (fun x => x <> [] /\ trimmed x) xs -> trimmed (join SP xs).
Proof.
  induction xs as [|x xs IH]; intros Hall.
  - split; intros c; simpl; discriminate.
  - inversion Hall as [|? ? [Hx [Hh Hl]] Hxs]; subst.
    destruct xs as [|y xs]; [split; assumption|].
    rewrite join_cons2.
    specialize (IH Hxs); destruct IH as [_ IHl].
    assert (Hj : join SP (y :: xs) <> []).
    { apply join_nonempty; [discriminate|].
      eapply Forall_impl; [|exact Hxs]. simpl; tauto. }
    split; intros c Hc.
    + rewrite hd_error_app in Hc by assumption; auto.
    + rewrite app_assoc, hd_error_rev_app in Hc by assumption; auto.
Qed.

Lemma In_join (sep : str) (xs : list str) (c : char) :
  In c (join sep xs) -> In c sep \/ exists x, In x xs /\ In c x.
Proof.
  induction xs as [|x xs IH]; [simpl; tauto|].
  destruct xs as [|y xs].
  - simpl; intros H; right; exists x; auto.
  - rewrite join_cons2; intros H.
    apply in_app_or in H; destruct H as [H|H].
    + right; exists x; simpl; auto.
    + apply in_app_or in H; destruct H as [H|H]; [auto|].
      destruct (IH H) as [H'|(z & Hz & Hc)]; [auto|].
      right; exists z; split; [right; exact Hz | exact Hc].
Qed.

Lemma split_nonempty (s : str) (sep : char) : split s sep <> [].
Proof.
  induction s as [|c s IH]; simpl; [discriminate|].
  destruct (char_eqb c sep); [discriminate|].
  destruct (split s sep); discriminate.
Qed.

(** No line of [s.split(sep)] holds the separator. *)
Lemma split_no_sep (s : str) (sep : char) :
  Forall (fun l => ~ In sep l) (split s sep).
Proof.
  induction s as [|c s IH]; simpl.
  - constructor; [simpl; tauto | constructor].
  - destruct (char_eqb c sep) eqn:E.
    + constructor; [simpl; tauto | exact IH].
    + apply char_eqb_neq in E.
      destruct (split s sep) as [|l ls].
      * constructor; [|constructor].
        simpl; intros [H|H]; [congruence | contradiction].
      * inversion IH; subst.
        constructor; [|assumption].
        simpl; intros [H|H]; [congruence | contradiction].
Qed.

(** Joining the lines on the separator gives the text back. *)
Lemma join_split (s : str) (sep : char) : join [sep] (split s sep) = s.
Proof.
  induction s as [|c s IH]; simpl; [reflexivity|].
  destruct (char_eqb c sep) eqn:E.
  - apply char_eqb_eq in E; subst c.
    destruct (split s sep) as [|l ls] eqn:El.
    + exfalso; eapply split_nonempty; eassumption.
    + simpl; f_equal; exact IH.
  - destruct (split s sep) as [|l ls] eqn:El.
    + exfalso; eapply split_nonempty; eassumption.
    + destruct ls as [|l' ls]; simpl in *; congruence.
Qed.

End PyFacts.

Import PyFacts.

(** ** The parser: its loops as list functions *)

Module ParserFacts.

Lemma getitem_skipn {A : Type} (xs : list A) (i : nat) :
  i < length xs ->
  exists x, getitem xs i = Ok x /\ skipn i xs = x :: skipn (S i) xs.
Proof.
  revert i; induction xs as [|y xs IH]; intros i Hi; simpl in Hi; [lia|].
  destruct i as [|i].
  - exists y; split; reflexivity.
  - destruct (IH i) as (x & Hg & Hs); [lia|].
    exists x; split; [exact Hg | exact Hs].
Qed.

Lemma body_loop_fold (fuel : nat) (lines : list str) (i : nat) (st : state) :
  length lines - i < fuel ->
  body_loop fuel lines i st = Ok (fold_left body_step (skipn i lines) st).
Proof.
  revert i st; induction fuel as [|fuel IH]; intros i st Hf; [lia|].
  simpl. destruct (i <? length lines) eqn:E.
  - apply Nat.ltb_lt in E.
    destruct (getitem_skipn lines i E) as (l & Hg & Hs).
    rewrite Hg, Hs; simpl.
    rewrite Nat.add_1_r; apply IH; lia.
  - apply Nat.ltb_ge in E.
    rewrite skipn_all2 by exact E; reflexivity.
Qed.

Lemma skip_blank_dropwhile (fuel : nat) (lines : list str) (i : nat) :
  length lines - i < fuel ->
  exists j, skip_blank fuel lines i = Ok j
            /\ skipn j lines = dropwhile is_blank (skipn i lines).
Proof.
  revert i; induction fuel as [|fuel IH]; intros i Hf; [lia|].
  simpl. destruct (i <? length lines) eqn:E.
  - apply Nat.ltb_lt in E.
    destruct (getitem_skipn lines i E) as (l & Hg & Hs).
    rewrite Hg, Hs; simpl.
    destruct (is_blank l).
    + rewrite Nat.add_1_r; apply IH; lia.
    + exists i; split; [reflexivity | exact Hs].
  - apply Nat.ltb_ge in E.
    exists i; split; [reflexivity|].
    rewrite skipn_all2 by exact E; reflexivity.
Qed.

(** The loop only appends to [elements]: what it appends depends on the
    accumulator alone. *)
Lemma flush_para_elements (els : list element) (acc : list str) :
  flush_para (mkState els acc)
  = mkState (els ++ elements (flush_para (mkState [] acc)))
            (para_lines (flush_para (mkState [] acc))).
Proof.
  destruct acc; unfold flush_para; simpl; [rewrite app_nil_r|]; reflexivity.
Qed.

Lemma body_step_elements (els : list element) (acc : list str) (l : str) :
  body_step (mkState els acc) l
  = mkState (els ++ elements (body_step (mkState [] acc) l))
            (para_lines (body_step (mkState [] acc) l)).
Proof.
  unfold body_step.
  destruct (str_eqb (strip l) SCENE); [|destruct (str_eqb (strip l) [])].
  - rewrite (flush_para_elements els acc); simpl.
    rewrite app_assoc; reflexivity.
  - apply flush_para_elements.
  - simpl; rewrite app_nil_r; reflexivity.
Qed.

Lemma fold_elements (ls : list str) (els : list element) (acc : list str) :
  elements (flush_para (fold_left body_step ls (mkState els acc)))
  = els ++ run acc ls.
Proof.
  unfold run; revert els acc; induction ls as [|l ls IH]; intros els acc.
  - simpl; rewrite flush_para_elements; reflexivity.
  - simpl. rewrite body_step_elements.
    destruct (body_step (mkState [] acc) l) as [E A]; simpl.
    rewrite IH, (IH E A), app_assoc; reflexivity.
Qed.

(** With fuel for one turn more than there are lines, [parse_chapter]
    returns, and returns the elements of its lines. *)
Lemma parse_chapter_fuel_lines (fuel : nat) (text : str) :
  length (split text 10%N) < fuel ->
  parse_chapter_fuel fuel text = Ok (parse_lines (split text 10%N)).
Proof.
  unfold parse_chapter_fuel.
  set (lines := split text 10%N).
  assert (Hne : lines <> []) by apply split_nonempty.
  destruct lines as [|l0 rest]; [congruence|].
  intros Hlt.
  assert (Hfuel : forall i, length (l0 :: rest) - i < fuel)
    by (intros i; lia).
  unfold header, parse_lines.
  change (0 <? length (l0 :: rest)) with true; cbv iota.
  change (getitem (l0 :: rest) 0) with (Ok l0); cbv beta iota delta [bind].
  destruct (heading_re l0).
  - destruct (skip_blank_dropwhile fuel (l0 :: rest) 1 (Hfuel 1))
      as (j & Hj & Hs).
    change (0 + 1) with 1; rewrite Hj.
    simpl skipn in Hs.
    destruct (j <? length (l0 :: rest)) eqn:E.
    + apply Nat.ltb_lt in E.
      destruct (getitem_skipn (l0 :: rest) j E) as (s & Hg & Hs').
      rewrite Hg. cbv beta iota delta [fst snd].
      rewrite body_loop_fold by apply Hfuel.
      rewrite fold_elements.
      rewrite <- Hs, Hs', Nat.add_1_r; reflexivity.
    + apply Nat.ltb_ge in E.
      cbv beta iota delta [fst snd].
      rewrite body_loop_fold by apply Hfuel.
      rewrite fold_elements.
      rewrite <- Hs, skipn_all2 by exact E.
      reflexivity.
  - cbv beta iota delta [fst snd].
    rewrite body_loop_fold by apply Hfuel.
    rewrite fold_elements; reflexivity.
Qed.

Lemma parse_chapter_lines (text : str) :
  parse_chapter text = Ok (parse_lines (split text 10%N)).
Proof. apply parse_chapter_fuel_lines; lia. Qed.

End ParserFacts.

Import ParserFacts.

(** ** The parser: the heading pattern and the body of a chapter *)

Module ParserProps.

Lemma strip_prefix_Some (p s rest : str) :
  strip_prefix p s = Some rest <-> s = p ++ rest.
Proof.
  revert s; induction p as [|a p IH]; intros s; simpl.
  - split; [intros H; inversion H; reflexivity | intros ->; reflexivity].
  - destruct s as [|b s]; [split; discriminate|].
    destruct (char_eqb a b) eqn:E.
    + apply char_eqb_eq in E; subst b. rewrite IH.
      split; [intros ->; reflexivity | intros H; inversion H; reflexivity].
    + apply char_eqb_neq in E.
      split; [discriminate | intros H; inversion H; congruence].
Qed.

Lemma chapter_pattern_iff (ws dg : char -> bool) (line : str) :
  (forall c, dg c = true -> ws c = false) ->
  chapter_pattern ws dg line = true <-> matches_chapter ws dg line.
Proof.
  intros Hdisj; unfold chapter_pattern, matches_chapter; split.
  - destruct (strip_prefix CHAPTER line) as [rest|] eqn:E; [|discriminate].
    apply strip_prefix_Some in E.
    destruct rest as [|c rest']; [discriminate|].
    destruct (ws c) eqn:Hc; [|discriminate]; simpl.
    destruct (dropwhile ws rest') as [|d r] eqn:Hd; [discriminate|].
    intros Hdg.
    destruct (dropwhile_split ws rest') as (pre & Hs & Hp).
    rewrite Hd in Hs.
    exists (c :: pre), [d], r; repeat split.
    + rewrite E, Hs; reflexivity.
    + discriminate.
    + constructor; assumption.
    + discriminate.
    + constructor; [assumption | constructor].
  - intros (sp & ds & tl & -> & Hsp & Hws & Hds & Hdg).
    replace (strip_prefix CHAPTER (CHAPTER ++ sp ++ ds ++ tl))
      with (Some (sp ++ ds ++ tl))
      by (symmetry; apply strip_prefix_Some; reflexivity).
    destruct sp as [|c sp]; [congruence|].
    inversion Hws as [|? ? Hc Hws']; subst.
    simpl; rewrite Hc; simpl.
    rewrite (dropwhile_app ws _ _ Hws').
    destruct ds as [|d ds]; [congruence|].
    inversion Hdg as [|? ? Hd _]; subst.
    simpl; rewrite (Hdisj d Hd); exact Hd.
Qed.

(** A decimal digit is not white space. *)
Lemma isspace_not_decimal (c : char) : isspace c = true -> isdecimal c = false.
Proof.
  unfold isspace; intros H.
  repeat (apply orb_true_iff in H; destruct H as [H|H]);
    try (apply andb_true_iff in H; destruct H as [H1 H2];
         apply N.leb_le in H1; apply N.leb_le in H2);
    try (apply N.eqb_eq in H; subst c; reflexivity).
  - assert (E : (c = 9 \/ c = 10 \/ c = 11 \/ c = 12 \/ c = 13)%N) by lia.
    repeat (destruct E as [E|E]); subst c; reflexivity.
  - assert (E : (c = 28 \/ c = 29 \/ c = 30 \/ c = 31 \/ c = 32)%N) by lia.
    repeat (destruct E as [E|E]); subst c; reflexivity.
  - assert (E : (c = 8192 \/ c = 8193 \/ c = 8194 \/ c = 8195 \/ c = 8196
                 \/ c = 8197 \/ c = 8198 \/ c = 8199 \/ c = 8200 \/ c = 8201
                 \/ c = 8202)%N) by lia.
    repeat (destruct E as [E|E]); subst c; reflexivity.
Qed.

Lemma decimal_not_space (c : char) : isdecimal c = true -> isspace c = false.
Proof.
  intros H; destruct (isspace c) eqn:E; [|reflexivity].
  apply isspace_not_decimal in E; congruence.
Qed.

(** [re.match] finds a match exactly on the lines of the pattern. *)
Lemma heading_re_iff (line : str) :
  heading_re line = true <-> matches_heading line.
Proof. apply chapter_pattern_iff, decimal_not_space. Qed.

Lemma heading_re_false_iff (line : str) :
  heading_re line = false <-> ~ matches_heading line.
Proof.
  rewrite <- heading_re_iff.
  destruct (heading_re line); split; congruence.
Qed.

(** A line of the pattern of the design document is a line of the pattern
    of the program. *)
Lemma spec_matches_heading_incl (line : str) :
  spec_matches_heading line -> matches_heading line.
Proof.
  intros (sp & ds & tl & E & Hsp & Hws & Hds); exists sp, ds, tl.
  repeat split; try tauto.
  eapply Forall_impl; [|exact Hws].
  simpl; intros c Hc; apply char_eqb_eq in Hc; subst c; reflexivity.
Qed.

Lemma scene_not_blank (l : str) : is_scene l = true -> is_blank l = false.
Proof.
  unfold is_scene, is_blank; intros H.
  apply str_eqb_eq in H; rewrite H; reflexivity.
Qed.

Lemma run_nil (acc : list str) :
  run acc [] = match acc with
               | [] => []
               | _ :: _ => [Paragraph (join SP acc)]
               end.
Proof. destruct acc; reflexivity. Qed.

Lemma body_step_cases (acc : list str) (l : str) :
  body_step (mkState [] acc) l
  = if is_scene l then mkState (run acc [] ++ [SceneBreak]) []
    else if is_blank l then mkState (run acc []) []
    else mkState [] (acc ++ [strip l]).
Proof.
  unfold body_step, is_scene, is_blank, run.
  destruct (str_eqb (strip l) SCENE); [|destruct (str_eqb (strip l) [])];
    destruct acc; reflexivity.
Qed.

Lemma run_cons (acc : list str) (l : str) (rest : list str) :
  run acc (l :: rest)
  = if is_scene l then run acc [] ++ SceneBreak :: run [] rest
    else if is_blank l then run acc [] ++ run [] rest
    else run (acc ++ [strip l]) rest.
Proof.
  unfold run at 1; simpl fold_left.
  rewrite body_step_cases.
  destruct (is_scene l); [|destruct (is_blank l)].
  - rewrite fold_elements, <- app_assoc; reflexivity.
  - apply fold_elements.
  - reflexivity.
Qed.

Lemma run_text (ls rest : list str) (acc : list str) :
  Forall (fun l => is_text l = true) ls ->
  run acc (ls ++ rest) = run (acc ++ map strip ls) rest.
Proof.
  intros H; revert acc; induction H as [|l ls Hl _ IH]; intros acc; simpl.
  - rewrite app_nil_r; reflexivity.
  - rewrite run_cons.
    unfold is_text in Hl; apply andb_true_iff in Hl; destruct Hl as [H1 H2].
    apply negb_true_iff in H1, H2; rewrite H1, H2.
    rewrite IH, <- app_assoc; reflexivity.
Qed.

Lemma run_flush (acc : list str) (rest : list str) :
  (forall l, hd_error rest = Some l -> is_text l = false) ->
  run acc rest = run acc [] ++ run [] rest.
Proof.
  destruct rest as [|l rest]; intros H.
  - rewrite (run_nil []), app_nil_r; reflexivity.
  - specialize (H l eq_refl).
    rewrite !run_cons. unfold is_text in H.
    destruct (is_scene l); [reflexivity|].
    destruct (is_blank l); [reflexivity | discriminate].
Qed.

(** The loop builds the body the design document describes. *)
Lemma run_Body (ls pend : list str) :
  Forall (fun l => is_text l = true) pend ->
  Body (pend ++ ls) (run (map strip pend) ls).
Proof.
  revert pend; induction ls as [|l ls IH]; intros pend Hp.
  - rewrite run_nil. destruct pend as [|p pend]; [constructor|].
    change (map strip (p :: pend)) with (strip p :: map strip pend); cbv iota.
    change (strip p :: map strip pend) with (map strip (p :: pend)).
    apply Body_para; [discriminate | exact Hp | discriminate | constructor].
  - assert (Hsep : is_text l = false ->
                   Body (l :: ls) (run [] (l :: ls)) ->
                   Body (pend ++ l :: ls) (run (map strip pend) (l :: ls))).
    { intros Hl HB. destruct pend as [|p pend]; [exact HB|].
      rewrite run_flush by (intros ? E; inversion E; subst; exact Hl).
      rewrite run_nil.
      change (map strip (p :: pend)) with (strip p :: map strip pend); cbv iota.
      change (strip p :: map strip pend) with (map strip (p :: pend)).
      apply Body_para; [discriminate | exact Hp | | exact HB].
      intros ? E; inversion E; subst; exact Hl. }
    destruct (is_text l) eqn:Hl.
    + replace (pend ++ l :: ls) with ((pend ++ [l]) ++ ls)
        by (rewrite <- app_assoc; reflexivity).
      rewrite run_cons. assert (Hl' := Hl). unfold is_text in Hl.
      destruct (is_scene l); [discriminate|].
      destruct (is_blank l); [discriminate|].
      replace (map strip pend ++ [strip l]) with (map strip (pend ++ [l]))
        by (rewrite map_app; reflexivity).
      apply IH, Forall_app; split; [exact Hp|].
      constructor; [exact Hl' | constructor].
    + apply Hsep; [reflexivity|].
      rewrite run_cons, run_nil. unfold is_text in Hl.
      destruct (is_scene l) eqn:Hs.
      * apply Body_scene; [exact Hs | apply (IH [])]; constructor.
      * destruct (is_blank l) eqn:Hb; [|discriminate].
        apply Body_blank; [exact Hb | apply (IH [])]; constructor.
Qed.

Lemma body_Body (ls : list str) : Body ls (body ls).
Proof. apply (run_Body ls []); constructor. Qed.

(** The description leaves no choice: the body of the lines is one
    sequence. *)
Lemma Body_functional (ls : list str) (els : list element) :
  Body ls els -> els = body ls.
Proof.
  unfold body; induction 1 as [|l rest els Hb _ IH|l rest els Hs _ IH
                              |ls rest els Hne Ht Hhd _ IH].
  - reflexivity.
  - rewrite run_cons, run_nil, Hb.
    destruct (is_scene l) eqn:Hs; [|exact IH].
    apply scene_not_blank in Hs; congruence.
  - rewrite run_cons, run_nil, Hs; simpl; congruence.
  - rewrite run_text by exact Ht.
    rewrite run_flush by exact Hhd.
    rewrite run_nil; simpl app.
    destruct ls as [|l ls]; [congruence|].
    simpl; congruence.
Qed.

End ParserProps.

Import ParserProps.

(** ** The parser: the elements of a chapter *)

Module ParserClaims.

Lemma Body_body_elements (ls : list str) (els : list element) :
  Body ls els -> Forall body_element els.
Proof. induction 1; try constructor; simpl; auto. Qed.

(** A paragraph is the join of the stripped lines of a run of the body. *)
Lemma Body_paragraph (ls : list str) (els : list element) (p : str) :
  Body ls els -> In (Paragraph p) els ->
  exists ts, ts <> [] /\ Forall (fun l => is_text l = true) ts
             /\ incl ts ls /\ p = join SP (map strip ts).
Proof.
  induction 1 as [|l rest els Hb _ IH|l rest els Hs _ IH
                 |ts rest els Hne Ht Hhd _ IH]; intros Hin.
  - contradiction.
  - destruct (IH Hin) as (ts & H1 & H2 & H3 & H4).
    exists ts; repeat split; auto using incl_tl.
  - destruct Hin as [Hin|Hin]; [discriminate|].
    destruct (IH Hin) as (ts & H1 & H2 & H3 & H4).
    exists ts; repeat split; auto using incl_tl.
  - destruct Hin as [Hin|Hin].
    + inversion Hin; subst p.
      exists ts; repeat split; auto using incl_appl, incl_refl.
    + destruct (IH Hin) as (ts' & H1 & H2 & H3 & H4).
      exists ts'; repeat split; auto using incl_appr.
Qed.

Lemma is_text_strip (l : str) :
  is_text l = true -> strip l <> [] /\ trimmed (strip l).
Proof.
  unfold is_text, is_blank; intros H.
  apply andb_true_iff in H; destruct H as [_ H].
  apply negb_true_iff, str_eqb_neq in H.
  split; [exact H | apply strip_trimmed].
Qed.

(** A paragraph is not empty and neither starts nor ends with white
    space. *)
Lemma Body_paragraph_trimmed (ls : list str) (els : list element) (p : str) :
  Body ls els -> In (Paragraph p) els -> p <> [] /\ trimmed p.
Proof.
  intros HB Hin.
  destruct (Body_paragraph _ _ p HB Hin) as (ts & Hne & Ht & _ & ->).
  assert (H : Forall (fun x => x <> [] /\ trimmed x) (map strip ts)).
  { apply Forall_map. eapply Forall_impl; [|exact Ht].
    intros l; apply is_text_strip. }
  split.
  - apply join_nonempty.
    + destruct ts; [congruence | discriminate].
    + eapply Forall_impl; [|exact H]. simpl; tauto.
  - apply join_trimmed; exact H.
Qed.

(** A paragraph holds a character of one of its lines, or a space. *)
Lemma Body_paragraph_chars (ls : list str) (els : list element) (p : str)
    (c : char) :
  Body ls els -> In (Paragraph p) els -> In c p ->
  c = 32%N \/ exists l, In l ls /\ In c l.
Proof.
  intros HB Hin Hc.
  destruct (Body_paragraph _ _ p HB Hin) as (ts & _ & _ & Hincl & ->).
  apply In_join in Hc. destruct Hc as [[Hc|[]]|(x & Hx & Hc)]; [auto|].
  right. apply in_map_iff in Hx. destruct Hx as (l & <- & Hl).
  exists l; split; [apply Hincl; exact Hl | apply In_strip; exact Hc].
Qed.

(** The lines of a chapter: the first line, the blank lines that follow
    it, and what is left. *)
Lemma lines_of_text (text : str) :
  exists l0 blanks after,
    split text 10%N = l0 :: blanks ++ after
    /\ Forall (fun l => is_blank l = true) blanks
    /\ after = dropwhile is_blank (blanks ++ after)
    /\ (forall s, hd_error after = Some s -> is_blank s = false).
Proof.
  destruct (split text 10%N) as [|l0 rest] eqn:E.
  - exfalso; eapply split_nonempty; eassumption.
  - destruct (dropwhile_split is_blank rest) as (blanks & Hs & Hb).
    exists l0, blanks, (dropwhile is_blank rest).
    rewrite <- Hs; repeat split; auto.
    intros s Hhd.
    destruct (dropwhile is_blank rest) as [|x r] eqn:Ed; [discriminate|].
    inversion Hhd; subst x.
    apply (dropwhile_head is_blank rest _ _ Ed).
Qed.

Lemma parse_lines_heading (l0 : str) (rest : list str) :
  heading_re l0 = true ->
  parse_lines (l0 :: rest)
  = Heading l0 :: match dropwhile is_blank rest with
                  | [] => []
                  | s :: rest' => Subtitle s :: body rest'
                  end.
Proof. intros H; simpl; rewrite H; reflexivity. Qed.

Lemma parse_lines_no_heading (l0 : str) (rest : list str) :
  heading_re l0 = false -> parse_lines (l0 :: rest) = body (l0 :: rest).
Proof. intros H; simpl; rewrite H; reflexivity. Qed.

Lemma body_elements (ls : list str) : Forall body_element (body ls).
Proof. apply (Body_body_elements _ _ (body_Body ls)). Qed.

End ParserClaims.

Import ParserClaims.

Module ParserTheorems.

Lemma spec_pattern_iff (line : str) :
  chapter_pattern (fun c => char_eqb c 32%N) isdecimal line = true
  <-> spec_matches_heading line.
Proof.
  apply chapter_pattern_iff. intros c Hd.
  destruct (char_eqb c 32%N) eqn:E; [|reflexivity].
  apply char_eqb_eq in E; subst c; discriminate.
Qed.

(** C1, amended: the first line is a heading exactly when it starts with
    the word CHAPTER, one or more white-space characters (space, tab and
    the other characters of [\s]) and one or more decimal digits.  Then
    [parse_chapter] emits that line as the [Heading], skips the blank
    lines that follow it and, if a line remains, emits it as the
    [Subtitle]; otherwise it emits neither a [Heading] nor a [Subtitle].
    The text "CHAPTER 1", a blank line, "Prologue" gives
    [Heading "CHAPTER 1"; Subtitle "Prologue"]. *)
Theorem heading_then_subtitle :
  (forall text : str,
      exists l0 blanks after,
        split text 10%N = l0 :: blanks ++ after
        /\ Forall (fun l => is_blank l = true) blanks
        /\ (forall s, hd_error after = Some s -> is_blank s = false)
        /\ (matches_heading l0 ->
            match after with
            | [] => parse_chapter text = Ok [Heading l0]
            | s :: _ =>
                exists els,
                  parse_chapter text = Ok (Heading l0 :: Subtitle s :: els)
                  /\ Forall body_element els
            end)
        /\ (~ matches_heading l0 ->
            exists els,
              parse_chapter text = Ok els /\ Forall body_element els))
  /\ parse_chapter (lit "CHAPTER 1" ++ NL ++ NL ++ lit "Prologue")
     = Ok [Heading (lit "CHAPTER 1"); Subtitle (lit "Prologue")].
Proof.
  split; [|vm_compute; reflexivity].
  intros text.
  destruct (lines_of_text text) as (l0 & blanks & after & Hs & Hb & Hd & Hhd).
  exists l0, blanks, after; repeat split; auto.
  - intros Hm. apply heading_re_iff in Hm.
    rewrite parse_chapter_lines, Hs, (parse_lines_heading _ _ Hm), <- Hd.
    destruct after as [|s rest]; [reflexivity|].
    exists (body rest); split; [reflexivity | apply body_elements].
  - intros Hm. apply heading_re_false_iff in Hm.
    rewrite parse_chapter_lines, Hs, (parse_lines_no_heading _ _ Hm).
    eexists; split; [reflexivity | apply body_elements].
Qed.

(** C1 as stated fails: in "CHAPTER", a tab, "1" no space follows the
    word CHAPTER, and the line is the [Heading] all the same. *)
Lemma heading_after_tab :
  ~ spec_matches_heading (lit "CHAPTER" ++ [9%N] ++ lit "1")
  /\ parse_chapter (lit "CHAPTER" ++ [9%N] ++ lit "1")
     = Ok [Heading (lit "CHAPTER" ++ [9%N] ++ lit "1")].
Proof.
  split; [|vm_compute; reflexivity].
  intros H; apply spec_pattern_iff in H; vm_compute in H; discriminate.
Qed.

(** C2: the lines after the heading block are read as the body: a blank
    line gives no element, and each longest run of consecutive lines that
    are neither blank nor a scene break gives exactly one [Paragraph],
    the stripped lines joined by single spaces, with no newline in it.
    "Hello\nworld\n\nNext para" gives
    [Paragraph "Hello world"; Paragraph "Next para"]. *)
Theorem paragraphs_of_runs :
  (forall text : str,
      exists hdr pre rest els,
        parse_chapter text = Ok (hdr ++ els)
        /\ split text 10%N = pre ++ rest
        /\ Forall (fun e => ~ body_element e) hdr
        /\ (forall l0, hd_error (split text 10%N) = Some l0 ->
            ~ matches_heading l0 -> hdr = [] /\ pre = [])
        /\ Body rest els
        /\ (forall p, In (Paragraph p) (hdr ++ els) -> ~ In 10%N p))
  /\ parse_chapter
       (lit "Hello" ++ NL ++ lit "world" ++ NL ++ NL ++ lit "Next para")
     = Ok [Paragraph (lit "Hello world"); Paragraph (lit "Next para")].
Proof.
  split; [|vm_compute; reflexivity].
  intros text.
  assert (Hnl : forall rest els pre p,
             split text 10%N = pre ++ rest -> Body rest els ->
             In (Paragraph p) els -> ~ In 10%N p).
  { intros rest els pre p Hs HB Hin Hc.
    destruct (Body_paragraph_chars _ _ p _ HB Hin Hc) as [E|(l & Hl & Hcl)];
      [discriminate|].
    pose proof (split_no_sep text 10%N) as Hno.
    rewrite Forall_forall in Hno.
    apply (Hno l); [rewrite Hs; apply in_or_app; auto | exact Hcl]. }
  rewrite parse_chapter_lines.
  destruct (split text 10%N) as [|l0 rest0] eqn:E.
  { exfalso; eapply split_nonempty; eassumption. }
  destruct (heading_re l0) eqn:Hm.
  - rewrite (parse_lines_heading _ _ Hm).
    assert (Hno : ~ (~ matches_heading l0))
      by (intros H; apply H, heading_re_iff; exact Hm).
    destruct (dropwhile_split is_blank rest0) as (blanks & Hs & _).
    destruct (dropwhile is_blank rest0) as [|s rest'].
    + exists [Heading l0], (l0 :: rest0), [], []; repeat split.
      * rewrite app_nil_r; reflexivity.
      * repeat constructor; simpl; tauto.
      * inversion H; subst; contradiction.
      * inversion H; subst; contradiction.
      * constructor.
      * simpl; intros p [H|[]]; discriminate.
    + exists [Heading l0; Subtitle s], (l0 :: blanks ++ [s]), rest', (body rest').
      assert (Hsplit : l0 :: rest0 = (l0 :: blanks ++ [s]) ++ rest')
        by (simpl; rewrite <- app_assoc; simpl; congruence).
      repeat split.
      * exact Hsplit.
      * repeat constructor; simpl; tauto.
      * inversion H; subst; contradiction.
      * inversion H; subst; contradiction.
      * apply body_Body.
      * intros p [H|[H|H]]; try discriminate.
        apply (Hnl rest' (body rest') _ p Hsplit (body_Body rest') H).
  - rewrite (parse_lines_no_heading _ _ Hm).
    exists [], [], (l0 :: rest0), (body (l0 :: rest0)); repeat split.
    + apply Forall_nil.
    + apply body_Body.
    + intros p H. apply (Hnl (l0 :: rest0) _ [] p eq_refl (body_Body _) H).
Qed.

(** The elements of a chapter: the heading block, then the body of the
    lines that are left. *)
Lemma parse_lines_shape (lines : list str) :
  lines <> [] ->
  exists hdr rest,
    parse_lines lines = hdr ++ body rest
    /\ (hdr = []
        \/ (exists l0, hd_error lines = Some l0 /\ matches_heading l0
                       /\ (hdr = [Heading l0]
                           \/ exists s, In s lines /\ is_blank s = false
                                        /\ hdr = [Heading l0; Subtitle s]))).
Proof.
  destruct lines as [|l0 rest0]; [congruence|]; intros _.
  destruct (heading_re l0) eqn:Hm.
  - rewrite (parse_lines_heading _ _ Hm).
    apply heading_re_iff in Hm.
    destruct (dropwhile_split is_blank rest0) as (blanks & Hs & _).
    destruct (dropwhile is_blank rest0) as [|s rest'] eqn:Ed.
    + exists [Heading l0], []; split; [reflexivity|].
      right; exists l0; auto.
    + exists [Heading l0; Subtitle s], rest'; split; [reflexivity|].
      right; exists l0; repeat split; auto.
      right; exists s; repeat split.
      * right; rewrite Hs; apply in_or_app; right; left; reflexivity.
      * apply (dropwhile_head is_blank rest0 _ _ Ed).
  - rewrite (parse_lines_no_heading _ _ Hm).
    exists [], (l0 :: rest0); split; [reflexivity | left; reflexivity].
Qed.

Lemma matches_heading_first (l : str) (c : char) :
  matches_heading l -> hd_error l = Some c -> isspace c = false.
Proof.
  intros (sp & ds & tl & -> & _) H.
  vm_compute in H; inversion H; subst c; reflexivity.
Qed.

(** What an element of a chapter holds. *)
Lemma parse_lines_In (lines : list str) (e : element) :
  lines <> [] -> In e (parse_lines lines) ->
  match e with
  | Heading h => hd_error lines = Some h /\ matches_heading h
  | Subtitle s => In s lines /\ is_blank s = false
  | Paragraph p => p <> [] /\ trimmed p
  | SceneBreak => True
  end.
Proof.
  intros Hne Hin.
  destruct (parse_lines_shape lines Hne) as (hdr & rest & E & Hhdr).
  rewrite E in Hin; apply in_app_or in Hin; destruct Hin as [Hin|Hin].
  - destruct Hhdr as [->|(l0 & Hl0 & Hm & [->|(s & Hs & Hb & ->)])].
    + contradiction.
    + destruct Hin as [<-|[]]; auto.
    + destruct Hin as [<-|[<-|[]]]; auto.
  - pose proof (body_elements rest) as Hbody.
    rewrite Forall_forall in Hbody; specialize (Hbody e Hin).
    destruct e as [h|s| |p]; try contradiction; [exact I|].
    apply (Body_paragraph_trimmed rest (body rest) p (body_Body rest) Hin).
Qed.

Lemma parse_chapter_In (text : str) :
  exists els,
    parse_chapter text = Ok els
    /\ forall e, In e els ->
       match e with
       | Heading h =>
           hd_error (split text 10%N) = Some h /\ matches_heading h
       | Subtitle s => In s (split text 10%N) /\ is_blank s = false
       | Paragraph p => p <> [] /\ trimmed p
       | SceneBreak => True
       end.
Proof.
  rewrite parse_chapter_lines; eexists; split; [reflexivity|].
  intros e; apply parse_lines_In, split_nonempty.
Qed.

(** C3, amended: every line that goes into a [Paragraph] is stripped of
    its leading and trailing white space first, so that a [Paragraph] text
    is not empty and neither starts nor ends with white space.  A
    [Heading] and a [Subtitle] hold their line as it was read: the
    [Heading] is the first line, which starts with the word CHAPTER and so
    not with white space, and the [Subtitle] is a line of the text that is
    not blank. *)
Theorem paragraph_lines_stripped (text : str) :
  exists els,
    parse_chapter text = Ok els
    /\ (forall p, In (Paragraph p) els -> p <> [] /\ trimmed p)
    /\ (forall h, In (Heading h) els ->
        hd_error (split text 10%N) = Some h
        /\ forall c, hd_error h = Some c -> isspace c = false)
    /\ (forall s, In (Subtitle s) els ->
        In s (split text 10%N) /\ is_blank s = false).
Proof.
  destruct (parse_chapter_In text) as (els & E & H).
  exists els; split; [exact E|]; repeat apply conj.
  - intros p Hin; apply (H _ Hin).
  - intros h Hin; destruct (H _ Hin) as [Hh Hm]; split; [exact Hh|].
    intros c; apply matches_heading_first; exact Hm.
  - intros s Hin; apply (H _ Hin).
Qed.

(** C3 as stated fails: a heading line and a subtitle line keep the white
    space they end or start with. *)
Lemma heading_subtitle_keep_whitespace :
  parse_chapter (lit "CHAPTER 1 " ++ NL ++ lit " Prologue ")
  = Ok [Heading (lit "CHAPTER 1 "); Subtitle (lit " Prologue ")]
  /\ ~ trimmed (lit "CHAPTER 1 ")
  /\ ~ trimmed (lit " Prologue ").
Proof.
  split; [vm_compute; reflexivity|].
  split; intros [Hh Hl]; specialize (Hl 32%N eq_refl); discriminate.
Qed.

(** C4: [parse_chapter] returns for every text, the empty one too: its
    loops end, with any fuel above the number of lines and the same
    result, and no index is out of range.  No [Paragraph] of the result
    is empty, stripped or not.  The text "* * *" alone gives
    [SceneBreak] and nothing else. *)
Theorem parse_total_no_empty_paragraph :
  (forall text : str,
      exists els,
        parse_chapter text = Ok els
        /\ (forall fuel, length (split text 10%N) < fuel ->
                         parse_chapter_fuel fuel text = Ok els)
        /\ forall p, In (Paragraph p) els -> p <> [] /\ strip p <> [])
  /\ parse_chapter [] = Ok []
  /\ parse_chapter (lit "* * *") = Ok [SceneBreak].
Proof.
  split; [|split; vm_compute; reflexivity].
  intros text.
  destruct (parse_chapter_In text) as (els & E & H).
  exists els; split; [exact E|]; split.
  - intros fuel Hf. rewrite parse_chapter_lines in E.
    rewrite (parse_chapter_fuel_lines fuel text Hf); exact E.
  - intros p Hin; destruct (H _ Hin) as [Hne Ht].
    rewrite (trimmed_strip p Ht); auto.
Qed.

Lemma body_nth_error (rest : list str) (k : nat) (e : element) :
  nth_error (body rest) k = Some e -> body_element e.
Proof.
  intros H; apply nth_error_In in H.
  pose proof (body_elements rest) as Hb; rewrite Forall_forall in Hb; auto.
Qed.

(** C7: the result of [parse_chapter] holds a [Heading] at its first place
    only and a [Subtitle] at its second place only, the latter right after
    a [Heading]: at most one of each. *)
Theorem heading_first_subtitle_second (text : str) :
  exists els,
    parse_chapter text = Ok els
    /\ (forall k h, nth_error els k = Some (Heading h) -> k = 0)
    /\ (forall k s, nth_error els k = Some (Subtitle s) ->
        k = 1 /\ exists h, nth_error els 0 = Some (Heading h)).
Proof.
  rewrite parse_chapter_lines; eexists; split; [reflexivity|].
  destruct (parse_lines_shape (split text 10%N) (split_nonempty _ _))
    as (hdr & rest & -> & Hhdr).
  assert (Hb : forall k e, nth_error (body rest) k = Some e -> body_element e)
    by apply body_nth_error.
  destruct Hhdr as [->|(l0 & _ & _ & [->|(s0 & _ & _ & ->)])]; split.
  - intros k h H; apply Hb in H; contradiction.
  - intros k s H; apply Hb in H; contradiction.
  - intros [|k] h H; [reflexivity|].
    simpl in H; apply Hb in H; contradiction.
  - intros [|k] s H; [discriminate|].
    simpl in H; apply Hb in H; contradiction.
  - intros [|[|k]] h H; [reflexivity | discriminate |].
    simpl in H; apply Hb in H; contradiction.
  - intros [|[|k]] s H; [discriminate | |].
    + split; [reflexivity | exists l0; reflexivity].
    + simpl in H; apply Hb in H; contradiction.
Qed.

(** C10: after a heading and the blank lines that follow it, the next
    line is the [Subtitle] whatever it holds, the scene-break marker
    "* * *" too; the second loop reads the lines after it only. *)
Theorem subtitle_unconditional (text h s : str) (blanks rest : list str) :
  split text 10%N = h :: blanks ++ s :: rest ->
  matches_heading h ->
  Forall (fun l => is_blank l = true) blanks ->
  is_blank s = false ->
  exists els,
    parse_chapter text = Ok (Heading h :: Subtitle s :: els)
    /\ Body rest els.
Proof.
  intros Hs Hm Hb Hn.
  apply heading_re_iff in Hm.
  rewrite parse_chapter_lines, Hs, (parse_lines_heading _ _ Hm).
  rewrite (dropwhile_app is_blank _ _ Hb); simpl; rewrite Hn.
  exists (body rest); split; [reflexivity | apply body_Body].
Qed.

(** The theorem at "CHAPTER 1", a blank line, "* * *", "The end": the
    marker is the [Subtitle], and no [SceneBreak] comes of it. *)
Lemma subtitle_scene_marker :
  exists els,
    parse_chapter (lit "CHAPTER 1" ++ NL ++ NL ++ lit "* * *" ++ NL
                   ++ lit "The end")
    = Ok (Heading (lit "CHAPTER 1") :: Subtitle (lit "* * *") :: els)
    /\ Body [lit "The end"] els.
Proof.
  apply (subtitle_unconditional
           (lit "CHAPTER 1" ++ NL ++ NL ++ lit "* * *" ++ NL ++ lit "The end")
           (lit "CHAPTER 1") (lit "* * *") [[]] [lit "The end"]).
  - reflexivity.
  - apply heading_re_iff; reflexivity.
  - repeat constructor.
  - reflexivity.
Defined.

End ParserTheorems.

(** ** The typographic normalizer *)

Module TypoFacts.

(** Induction on a list two elements at a time. *)
Lemma list_ind2 {A : Type} (P : list A -> Prop) :
  P [] -> (forall x, P [x]) ->
  (forall x y s, P s -> P (y :: s) -> P (x :: y :: s)) ->
  forall s, P s.
Proof.
  intros H0 H1 H2 s.
  enough (H : P s /\ forall x, P (x :: s)) by apply H.
  induction s as [|y s [IH1 IH2]]; split; auto.
Qed.

Lemma has_hh_cons2 (x y : char) (s : str) :
  has_hh (x :: y :: s)
  = (char_eqb x HYPHEN && char_eqb y HYPHEN) || has_hh (y :: s).
Proof. reflexivity. Qed.

Lemma has_hh_iff (s : str) : has_hh s = true <-> contains HH s.
Proof.
  split.
  - induction s as [| x | x y s _ IH] using list_ind2; try discriminate.
    rewrite has_hh_cons2, orb_true_iff, andb_true_iff, !char_eqb_eq.
    intros [[-> ->]|H].
    + exists [], s; reflexivity.
    + destruct (IH H) as (pre & post & E).
      exists (x :: pre), post; rewrite E; reflexivity.
  - intros (pre & post & ->).
    induction pre as [|c pre IH]; [reflexivity|].
    simpl app in *. destruct (pre ++ HYPHEN :: HYPHEN :: post) eqn:E.
    + destruct pre; discriminate.
    + rewrite has_hh_cons2, IH; apply orb_true_r.
Qed.

Lemma has_hh_false_iff (s : str) : has_hh s = false <-> ~ contains HH s.
Proof.
  rewrite <- has_hh_iff; destruct (has_hh s); split; congruence.
Qed.

Lemma typo_cons2 (x y : char) (s : str) :
  typographic_substitutions (x :: y :: s)
  = if char_eqb x HYPHEN && char_eqb y HYPHEN
    then EM_DASH :: typographic_substitutions s
    else x :: typographic_substitutions (y :: s).
Proof. reflexivity. Qed.

(** The result starts as the text does, unless the text starts with two
    hyphens. *)
Lemma typo_head (y : char) (s : str) :
  y <> HYPHEN ->
  hd_error (typographic_substitutions (y :: s)) = Some y.
Proof.
  intros Hy; destruct s as [|z s]; [reflexivity|].
  rewrite typo_cons2.
  apply char_eqb_neq in Hy; rewrite Hy; reflexivity.
Qed.

Lemma has_hh_cons (x : char) (s : str) :
  has_hh s = false ->
  (x = HYPHEN -> hd_error s <> Some HYPHEN) ->
  has_hh (x :: s) = false.
Proof.
  intros Hs Hx; destruct s as [|y s]; [reflexivity|].
  rewrite has_hh_cons2, Hs, orb_false_r.
  destruct (char_eqb x HYPHEN) eqn:Ex; [|reflexivity].
  apply char_eqb_eq in Ex; specialize (Hx Ex); simpl in *.
  apply char_eqb_neq; congruence.
Qed.

(** No two hyphens in a row are left. *)
Lemma typo_no_hh (t : str) : has_hh (typographic_substitutions t) = false.
Proof.
  induction t as [| x | x y s IH1 IH2] using list_ind2; try reflexivity.
  rewrite typo_cons2.
  destruct (char_eqb x HYPHEN && char_eqb y HYPHEN) eqn:E.
  - apply has_hh_cons; [exact IH1 | discriminate].
  - apply has_hh_cons; [exact IH2|].
    intros ->. rewrite char_eqb_refl in E; simpl in E.
    apply char_eqb_neq in E.
    rewrite (typo_head y s E); congruence.
Qed.

(** A text with no two hyphens in a row is left as it is. *)
Lemma typo_fixed (t : str) :
  has_hh t = false -> typographic_substitutions t = t.
Proof.
  induction t as [| x | x y s _ IH] using list_ind2; try reflexivity.
  rewrite has_hh_cons2, orb_false_iff; intros [E H].
  rewrite typo_cons2, E, (IH H); reflexivity.
Qed.

Lemma expand_typo (t : str) :
  expand (typographic_substitutions t) = expand t.
Proof.
  induction t as [| x | x y s IH1 IH2] using list_ind2; try reflexivity.
  rewrite typo_cons2.
  destruct (char_eqb x HYPHEN && char_eqb y HYPHEN) eqn:E.
  - apply andb_true_iff in E; destruct E as [Ex Ey].
    apply char_eqb_eq in Ex, Ey; subst x y.
    unfold expand in *; simpl; rewrite IH1; reflexivity.
  - unfold expand in *; simpl in *; rewrite IH2; reflexivity.
Qed.

(** The leftmost pair of hyphens becomes one em dash. *)
Lemma typo_leftmost (a b : str) :
  has_hh (a ++ [HYPHEN]) = false ->
  typographic_substitutions (a ++ HH ++ b)
  = a ++ [EM_DASH] ++ typographic_substitutions b.
Proof.
  induction a as [|x a IH]; intros H; [reflexivity|].
  change ((x :: a) ++ [HYPHEN]) with (x :: (a ++ [HYPHEN])) in H.
  change ((x :: a) ++ HH ++ b) with (x :: (a ++ HH ++ b)).
  change ((x :: a) ++ [EM_DASH] ++ typographic_substitutions b)
    with (x :: (a ++ [EM_DASH] ++ typographic_substitutions b)).
  destruct (a ++ [HYPHEN]) as [|y r] eqn:E1; [destruct a; discriminate|].
  rewrite has_hh_cons2, orb_false_iff in H; destruct H as [Hxy Hr].
  assert (E2 : exists r', a ++ HH ++ b = y :: r').
  { destruct a as [|z a]; inversion E1; subst; eexists; reflexivity. }
  destruct E2 as (r' & E2).
  rewrite E2, typo_cons2, Hxy, <- E2, (IH Hr); reflexivity.
Qed.

End TypoFacts.

Import TypoFacts.

(** C6: [typographic_substitutions] leaves no two hyphens in a row, each
    pair found from the left having become one em dash, and changes
    nothing else: a text without the pair is returned as it is, and
    writing the em dashes back as pairs of hyphens gives the same text
    from the result as from the argument.  It is idempotent, and
    "well--known" becomes "well—known". *)
Theorem normalize_em_dash :
  (forall t, ~ contains HH (typographic_substitutions t))
  /\ (forall a b, ~ contains HH (a ++ [HYPHEN]) ->
      typographic_substitutions (a ++ HH ++ b)
      = a ++ [EM_DASH] ++ typographic_substitutions b)
  /\ (forall t, ~ contains HH t -> typographic_substitutions t = t)
  /\ (forall t, expand (typographic_substitutions t) = expand t)
  /\ (forall t, typographic_substitutions (typographic_substitutions t)
                = typographic_substitutions t)
  /\ typographic_substitutions (lit "well--known")
     = lit "well" ++ [EM_DASH] ++ lit "known".
Proof.
  repeat apply conj.
  - intros t; apply has_hh_false_iff, typo_no_hh.
  - intros a b H; apply typo_leftmost, has_hh_false_iff, H.
  - intros t H; apply typo_fixed, has_hh_false_iff, H.
  - apply expand_typo.
  - intros t; apply typo_fixed, typo_no_hh.
  - reflexivity.
Qed.

(** ** The assembler *)

Module AssemblerFacts.

Import Assembler AssemblerSpec.

Lemma render_element_piece (st : state) (e : element) :
  render_element st e
  = mkState (parts st ++ [piece (need_no_indent st) e]) (sets_flag e).
Proof.
  destruct st as [ps f], e as [h|s| |p]; simpl; try reflexivity.
  destruct f; reflexivity.
Qed.

Lemma fold_render_element (els : list element) (st : state) :
  parts (fold_left render_element els st)
  = parts st ++ map (piece_at (need_no_indent st) els) (seq 0 (length els)).
Proof.
  revert st; induction els as [|e els IH]; intros st.
  - simpl; rewrite app_nil_r; reflexivity.
  - simpl fold_left. rewrite IH, render_element_piece.
    simpl parts; simpl need_no_indent.
    rewrite <- app_assoc; f_equal.
    simpl length; simpl seq; rewrite <- seq_shift.
    cbn [app map]; rewrite map_map; f_equal.
    apply map_ext; intros [|k]; reflexivity.
Qed.

Lemma render_chapter_parts (st : state) (els : list element) :
  parts (render_chapter st els) = parts st ++ chapter_parts els.
Proof.
  unfold render_chapter, chapter_parts, append.
  simpl parts. rewrite fold_render_element; simpl.
  rewrite <- !app_assoc; reflexivity.
Qed.

Lemma fold_render_chapter (chapters : list (list element)) (st : state) :
  parts (fold_left render_chapter chapters st)
  = parts st ++ flat_map chapter_parts chapters.
Proof.
  revert st; induction chapters as [|els chapters IH]; intros st.
  - simpl; rewrite app_nil_r; reflexivity.
  - simpl fold_left. rewrite IH, render_chapter_parts.
    simpl flat_map. rewrite <- app_assoc; reflexivity.
Qed.

(** The document, part by part. *)
Lemma build_html_parts (flag0 : bool) (css : str)
    (chapters : list (list element)) (title author : option str) :
  build_html_from flag0 css chapters title author
  = concat (head_parts css title author
            ++ flat_map chapter_parts chapters ++ [CLOSING]).
Proof.
  unfold build_html_from, append; simpl parts.
  rewrite fold_render_chapter; simpl parts.
  rewrite <- app_assoc; reflexivity.
Qed.

Lemma chapter_html_parts (els : list element) :
  chapter_html els = concat (chapter_parts els).
Proof.
  unfold chapter_html; rewrite render_chapter_parts; reflexivity.
Qed.

Lemma concat_flat_map {A : Type} (f : A -> list str) (xs : list A) :
  concat (flat_map f xs) = concat (map (fun x => concat (f x)) xs).
Proof.
  induction xs as [|x xs IH]; [reflexivity|].
  simpl; rewrite concat_app, IH; reflexivity.
Qed.

Lemma p_variants_differ (escaped : str) :
  p_no_indent escaped <> p_indent escaped.
Proof. unfold p_no_indent, p_indent; simpl; discriminate. Qed.

(** C5: in [build_html] the flag [need_no_indent] is false when a chapter
    starts, whatever it was before; a heading, a subtitle and a scene
    break set it, and a paragraph clears it.  So a paragraph is rendered
    with the class no-indent exactly when the element before it in its
    chapter is a heading, a subtitle or a scene break, and with a plain
    [<p>] otherwise.  For [Heading h; Paragraph p1; Paragraph p2] only
    [p1] is rendered no-indent; the first paragraph of a chapter without
    heading is rendered with a plain [<p>], also after a chapter that ends
    with the flag set. *)
Theorem indent_suppressed_after_break :
  (forall flag0 css chapters title author,
      build_html_from flag0 css chapters title author
      = concat (head_parts css title author
                ++ flat_map chapter_parts chapters ++ [CLOSING]))
  /\ (forall els k text,
         nth_error els k = Some (Paragraph text) ->
         piece_at false els k
         = (if suppressed els k then p_no_indent else p_indent)
             (typographic_substitutions (html_escape text)))
  /\ (forall els, suppressed els 0 = false)
  /\ (forall els j e,
         nth_error els j = Some e ->
         suppressed els (S j)
         = match e with
           | Heading _ | Subtitle _ | SceneBreak => true
           | Paragraph _ => false
           end)
  /\ (forall css h p1 p2,
         build_html css [[Heading h; Paragraph p1; Paragraph p2]] None None
         = concat [PREAMBLE; css; STYLE_END; CHAPTER_OPEN;
                   chapter_heading h;
                   p_no_indent (typographic_substitutions (html_escape p1));
                   p_indent (typographic_substitutions (html_escape p2));
                   DIV_CLOSE; CLOSING])
  /\ (forall css p1 p2,
         build_html css [[SceneBreak]; [Paragraph p1; Paragraph p2]] None None
         = concat [PREAMBLE; css; STYLE_END;
                   CHAPTER_OPEN; SCENE_BREAK; DIV_CLOSE;
                   CHAPTER_OPEN;
                   p_indent (typographic_substitutions (html_escape p1));
                   p_indent (typographic_substitutions (html_escape p2));
                   DIV_CLOSE; CLOSING]).
Proof.
  repeat apply conj.
  - apply build_html_parts.
  - intros els k text H; unfold piece_at, suppressed; rewrite H; simpl.
    destruct (suppressed_from false els k); reflexivity.
  - reflexivity.
  - intros els j e H; unfold suppressed; simpl; rewrite H.
    destruct e; reflexivity.
  - intros css h p1 p2; reflexivity.
  - intros css p1 p2; reflexivity.
Qed.

(** C8: the document is the head of the document, then the chapter
    containers of the chapters in the order of the list, each once and
    each from its own chapter alone, then the closing tags. *)
Theorem chapters_in_order (css : str) (chapters : list (list element))
    (title author : option str) :
  build_html css chapters title author
  = concat (head_parts css title author)
    ++ concat (map chapter_html chapters)
    ++ CLOSING.
Proof.
  unfold build_html; rewrite build_html_parts.
  rewrite !concat_app, concat_flat_map.
  change (concat [CLOSING]) with (CLOSING ++ []).
  rewrite app_nil_r. do 3 f_equal.
  apply map_ext; intros els; symmetry; apply chapter_html_parts.
Qed.

Lemma replace_char_app (c : char) (r a b : str) :
  replace_char c r (a ++ b) = replace_char c r a ++ replace_char c r b.
Proof. apply flat_map_app. Qed.

Lemma html_escape_app (a b : str) :
  html_escape (a ++ b) = html_escape a ++ html_escape b.
Proof. unfold html_escape; rewrite !replace_char_app; reflexivity. Qed.

Lemma In_replace_char (c : char) (r s : str) (x : char) :
  In x (replace_char c r s) -> In x r \/ In x s.
Proof.
  unfold replace_char; rewrite in_flat_map; intros (y & Hy & Hx).
  destruct (char_eqb y c); [auto|].
  destruct Hx as [<-|[]]; auto.
Qed.

(** Escaping brings no em dash in. *)
Lemma html_escape_em_dash (t : str) :
  In EM_DASH (html_escape t) -> In EM_DASH t.
Proof.
  unfold html_escape; intros H.
  repeat (apply In_replace_char in H; destruct H as [H|H];
          [vm_compute in H; intuition discriminate|]).
  exact H.
Qed.

Lemma contains_In_concat (s : str) (ps : list str) :
  In s ps -> contains s (concat ps).
Proof.
  intros H; apply in_split in H; destruct H as (l1 & l2 & ->).
  exists (concat l1), (concat l2); rewrite concat_app; reflexivity.
Qed.

Lemma In_book_title (css t : str) (author : option str) :
  t <> [] -> In (book_title t) (head_parts css (Some t) author).
Proof.
  destruct t as [|c t]; [congruence|]; intros _.
  unfold head_parts, title_page; cbn [truthy orb].
  destruct author as [[|d a]|]; cbn [truthy];
    rewrite !in_app_iff; cbn [In]; auto 10.
Qed.

Lemma In_book_author (css a : str) (title : option str) :
  a <> [] -> In (book_author a) (head_parts css title (Some a)).
Proof.
  destruct a as [|c a]; [congruence|]; intros _.
  unfold head_parts, title_page; cbn [truthy].
  rewrite orb_true_r.
  destruct title as [t|]; [destruct (truthy (Some t))|];
    rewrite !in_app_iff; cbn [In]; auto 10.
Qed.

Lemma app_HH_nonempty (x y : str) : x ++ HH ++ y <> [].
Proof. destruct x; discriminate. Qed.

(** C9: a title and an author are escaped and embedded as they are, not
    normalized: a pair of hyphens in them is a pair of hyphens in the
    document, and no em dash is there that was not in the text.  The text
    of a heading, a subtitle and a paragraph is escaped and normalized:
    no pair of hyphens is left of it. *)
Theorem title_author_not_normalized :
  (forall css chapters author x y,
      contains (lit "  " ++ div_open "book-title"
                ++ html_escape x ++ HH ++ html_escape y ++ DIV_CLOSE)
               (build_html css chapters (Some (x ++ HH ++ y)) author))
  /\ (forall css chapters title x y,
         contains (lit "  " ++ div_open "book-author"
                   ++ html_escape x ++ HH ++ html_escape y ++ DIV_CLOSE)
                  (build_html css chapters title (Some (x ++ HH ++ y))))
  /\ (forall t, In EM_DASH (html_escape t) -> In EM_DASH t)
  /\ (forall suppress e,
         exists open close text,
           piece suppress e = open ++ text ++ close
           /\ ~ contains HH text
           /\ match e with
              | Heading t | Subtitle t | Paragraph t =>
                  text = typographic_substitutions (html_escape t)
              | SceneBreak => True
              end).
Proof.
  repeat apply conj.
  - intros css chapters author x y.
    unfold build_html; rewrite build_html_parts.
    replace (lit "  " ++ div_open "book-title"
             ++ html_escape x ++ HH ++ html_escape y ++ DIV_CLOSE)
      with (book_title (x ++ HH ++ y))
      by (unfold book_title; rewrite !html_escape_app, <- !app_assoc;
          reflexivity).
    apply contains_In_concat, in_or_app; left.
    apply In_book_title, app_HH_nonempty.
  - intros css chapters title x y.
    unfold build_html; rewrite build_html_parts.
    replace (lit "  " ++ div_open "book-author"
             ++ html_escape x ++ HH ++ html_escape y ++ DIV_CLOSE)
      with (book_author (x ++ HH ++ y))
      by (unfold book_author; rewrite !html_escape_app, <- !app_assoc;
          reflexivity).
    apply contains_In_concat, in_or_app; left.
    apply In_book_author, app_HH_nonempty.
  - apply html_escape_em_dash.
  - intros suppress e.
    destruct e as [t|t| |t].
    + exists (lit "  " ++ div_open "chapter-heading"), DIV_CLOSE,
        (typographic_substitutions (html_escape t)); repeat apply conj.
      * unfold piece, chapter_heading; rewrite <- !app_assoc; reflexivity.
      * apply has_hh_false_iff, typo_no_hh.
      * reflexivity.
    + exists (lit "  " ++ div_open "chapter-subtitle"), DIV_CLOSE,
        (typographic_substitutions (html_escape t)); repeat apply conj.
      * unfold piece, chapter_subtitle; rewrite <- !app_assoc; reflexivity.
      * apply has_hh_false_iff, typo_no_hh.
      * reflexivity.
    + exists SCENE_BREAK, [], []; repeat apply conj.
      * exact (eq_sym (app_nil_r SCENE_BREAK)).
      * apply has_hh_false_iff; reflexivity.
      * exact I.
    + exists (if suppress
              then lit "  <p class=" ++ QUOTE ++ lit "no-indent" ++ QUOTE
                   ++ lit ">"
              else lit "  <p>"),
        (lit "</p>" ++ NL), (typographic_substitutions (html_escape t)).
      repeat apply conj.
      * destruct suppress; unfold piece, p_no_indent, p_indent;
          rewrite <- ?app_assoc; reflexivity.
      * apply has_hh_false_iff, typo_no_hh.
      * reflexivity.
Qed.

End AssemblerFacts.

(** * More of the program *)

(** ** The parser: blank lines, white space and what is kept *)

Module ParserMore.

Lemma blank_not_scene (l : str) : is_blank l = true -> is_scene l = false.
Proof.
  intros H; destruct (is_scene l) eqn:E; [|reflexivity].
  apply scene_not_blank in E; congruence.
Qed.

Lemma blank_not_text (l : str) : is_blank l = true -> is_text l = false.
Proof. intros H; unfold is_text; rewrite H, andb_false_r; reflexivity. Qed.

Lemma text_not_scene (l : str) : is_text l = true -> is_scene l = false.
Proof.
  unfold is_text; intros H; apply andb_true_iff in H.
  destruct H as [H _]; apply negb_true_iff in H; exact H.
Qed.

(** A heading line is not blank. *)
Lemma heading_not_blank (l : str) : heading_re l = true -> is_blank l = false.
Proof.
  intros H; apply heading_re_iff in H.
  destruct H as (sp & ds & tl & -> & _).
  unfold is_blank; apply str_eqb_neq; intros E.
  unfold strip, lstrip in E.
  change (dropwhile isspace (CHAPTER ++ sp ++ ds ++ tl))
    with (CHAPTER ++ sp ++ ds ++ tl) in E.
  destruct (rstrip_prefix (CHAPTER ++ sp ++ ds ++ tl)) as (ws & Hs & Hws).
  rewrite E in Hs; simpl in Hs; subst ws.
  inversion Hws; discriminate.
Qed.

Lemma run_blank (acc : list str) (b : str) (rest : list str) :
  is_blank b = true -> run acc (b :: rest) = run acc [] ++ run [] rest.
Proof.
  intros H; rewrite run_cons, (blank_not_scene b H), H; reflexivity.
Qed.

Lemma dropwhile_app_cons {A : Type} (p : A -> bool) (xs ys : list A)
    (y : A) (r : list A) :
  dropwhile p xs = y :: r -> dropwhile p (xs ++ ys) = (y :: r) ++ ys.
Proof.
  induction xs as [|x xs IH]; simpl; [discriminate|].
  destruct (p x); [exact IH | intros H; inversion H; reflexivity].
Qed.

Lemma dropwhile_app_nil {A : Type} (p : A -> bool) (xs ys : list A) :
  dropwhile p xs = [] -> dropwhile p (xs ++ ys) = dropwhile p ys.
Proof.
  induction xs as [|x xs IH]; simpl; [reflexivity|].
  destruct (p x); [exact IH | discriminate].
Qed.

(** The heading block and the lines of the body, for any change of the
    lines that leaves the first line and the subtitle line alone. *)
Lemma parse_lines_change (l0 : str) (rest rest' : list str) :
  body (l0 :: rest) = body (l0 :: rest') ->
  (dropwhile is_blank rest = [] -> dropwhile is_blank rest' = []) ->
  (forall s r, dropwhile is_blank rest = s :: r ->
               exists r', dropwhile is_blank rest' = s :: r'
                          /\ body r = body r') ->
  parse_lines (l0 :: rest) = parse_lines (l0 :: rest').
Proof.
  intros Hrun Hnil Hcons; simpl.
  destruct (heading_re l0); [|apply Hrun].
  destruct (dropwhile is_blank rest) as [|s r] eqn:E.
  - rewrite (Hnil eq_refl); reflexivity.
  - destruct (Hcons s r eq_refl) as (r' & -> & ->); reflexivity.
Qed.

Lemma run_app_blank (ls : list str) (acc : list str) (b : str) :
  is_blank b = true -> run acc (ls ++ [b]) = run acc ls.
Proof.
  intros Hb; revert acc; induction ls as [|l ls IH]; intros acc.
  - simpl; rewrite (run_blank acc b [] Hb), (run_nil []), app_nil_r.
    reflexivity.
  - simpl app; rewrite !run_cons, !IH; reflexivity.
Qed.

Lemma run_double_blank (before after : list str) (acc : list str) (b b' : str) :
  is_blank b = true -> is_blank b' = true ->
  run acc (before ++ b :: b' :: after) = run acc (before ++ b :: after).
Proof.
  intros Hb Hb'; revert acc; induction before as [|l ls IH]; intros acc.
  - simpl; rewrite !(run_blank _ b _ Hb), (run_blank _ b' _ Hb').
    rewrite (run_nil []); reflexivity.
  - simpl app; rewrite !run_cons, !IH; reflexivity.
Qed.

Lemma split_app_newline (text : str) :
  split (text ++ NL) 10%N = split text 10%N ++ [[]].
Proof.
  induction text as [|c t IH]; [reflexivity|].
  simpl; rewrite IH.
  destruct (char_eqb c 10%N); [reflexivity|].
  destruct (split t 10%N) as [|l ls] eqn:E; [|reflexivity].
  exfalso; eapply split_nonempty; eassumption.
Qed.

Lemma parse_lines_app_blank (lines : list str) (b : str) :
  lines <> [] -> is_blank b = true ->
  parse_lines (lines ++ [b]) = parse_lines lines.
Proof.
  destruct lines as [|l0 rest]; [congruence|]; intros _ Hb.
  apply (parse_lines_change l0 (rest ++ [b]) rest).
  - apply (run_app_blank (l0 :: rest) [] b Hb).
  - intros E.
    destruct (dropwhile is_blank rest) as [|s r] eqn:Er; [reflexivity|].
    rewrite (dropwhile_app_cons _ _ _ _ _ Er) in E; discriminate.
  - intros s r E.
    destruct (dropwhile is_blank rest) as [|s' r'] eqn:Er.
    + rewrite (dropwhile_app_nil _ _ _ Er) in E.
      simpl in E; rewrite Hb in E; discriminate.
    + rewrite (dropwhile_app_cons _ _ _ _ _ Er) in E.
      inversion E; subst. exists r'; split; [reflexivity|].
      apply (run_app_blank r' [] b Hb).
Qed.

(** X1: a newline at the end of the text changes nothing: the text and
    the text with one more newline give the same elements. *)
Theorem final_newline_ignored (text : str) :
  parse_chapter (text ++ NL) = parse_chapter text.
Proof.
  rewrite !parse_chapter_lines, split_app_newline.
  rewrite parse_lines_app_blank; [reflexivity | apply split_nonempty|].
  reflexivity.
Qed.

Lemma parse_lines_double_blank (before after : list str) (b b' : str) :
  is_blank b = true -> is_blank b' = true ->
  parse_lines (before ++ b :: b' :: after) = parse_lines (before ++ b :: after).
Proof.
  intros Hb Hb'. destruct before as [|l0 before].
  - simpl app.
    assert (Hh : heading_re b = false).
    { destruct (heading_re b) eqn:E; [|reflexivity].
      apply heading_not_blank in E; congruence. }
    rewrite !(parse_lines_no_heading _ _ Hh).
    apply (run_double_blank [] after [] b b' Hb Hb').
  - simpl app. apply parse_lines_change.
    + apply (run_double_blank (l0 :: before) after [] b b' Hb Hb').
    + intros E.
      destruct (dropwhile is_blank before) as [|s r] eqn:Er.
      * rewrite (dropwhile_app_nil _ _ (b :: b' :: after) Er) in E.
        rewrite (dropwhile_app_nil _ _ (b :: after) Er).
        simpl in E |- *; rewrite Hb, Hb' in E; rewrite Hb; exact E.
      * rewrite (dropwhile_app_cons _ _ (b :: b' :: after) _ _ Er) in E.
        discriminate.
    + intros s r E.
      destruct (dropwhile is_blank before) as [|s' r'] eqn:Er.
      * rewrite (dropwhile_app_nil _ _ (b :: b' :: after) Er) in E.
        rewrite (dropwhile_app_nil _ _ (b :: after) Er).
        simpl in E |- *; rewrite Hb, Hb' in E; rewrite Hb.
        exists r; split; [exact E | reflexivity].
      * rewrite (dropwhile_app_cons _ _ (b :: b' :: after) _ _ Er) in E.
        rewrite (dropwhile_app_cons _ _ (b :: after) _ _ Er).
        inversion E; subst. eexists; split; [reflexivity|].
        apply (run_double_blank r' after [] b b' Hb Hb').
Qed.

(** X2: a blank line right after a blank line changes nothing: two texts
    whose lines differ by one such line give the same elements. *)
Theorem repeated_blank_line_ignored (text text' : str)
    (before after : list str) (b b' : str) :
  split text 10%N = before ++ b :: after ->
  split text' 10%N = before ++ b :: b' :: after ->
  is_blank b = true -> is_blank b' = true ->
  parse_chapter text' = parse_chapter text.
Proof.
  intros Hs Hs' Hb Hb'.
  rewrite !parse_chapter_lines, Hs, Hs'.
  rewrite (parse_lines_double_blank before after b b' Hb Hb'); reflexivity.
Qed.

(** The theorem at "CHAPTER 1", a blank line, a line of spaces,
    "Prologue", "text" against the same without the line of spaces. *)
Lemma repeated_blank_line_example :
  parse_chapter (lit "CHAPTER 1" ++ NL ++ NL ++ lit "  " ++ NL
                 ++ lit "Prologue" ++ NL ++ lit "text")
  = parse_chapter (lit "CHAPTER 1" ++ NL ++ NL
                   ++ lit "Prologue" ++ NL ++ lit "text").
Proof.
  apply (repeated_blank_line_ignored
           (lit "CHAPTER 1" ++ NL ++ NL ++ lit "Prologue" ++ NL ++ lit "text")
           (lit "CHAPTER 1" ++ NL ++ NL ++ lit "  " ++ NL
            ++ lit "Prologue" ++ NL ++ lit "text")
           [lit "CHAPTER 1"] [lit "Prologue"; lit "text"] [] (lit "  "));
    reflexivity.
Defined.

(** The elements of a chapter: a heading block with no paragraph and no
    scene break, then the body of the lines after it. *)
Lemma parse_lines_suffix (l0 : str) (rest0 : list str) :
  exists hdr pre rest,
    parse_lines (l0 :: rest0) = hdr ++ body rest
    /\ l0 :: rest0 = pre ++ rest
    /\ paragraph_texts hdr = [] /\ scene_breaks hdr = 0
    /\ (heading_re l0 = false -> hdr = [] /\ pre = []).
Proof.
  destruct (heading_re l0) eqn:Hm.
  - rewrite (parse_lines_heading _ _ Hm).
    destruct (dropwhile_split is_blank rest0) as (blanks & Hs & _).
    destruct (dropwhile is_blank rest0) as [|s rest'].
    + exists [Heading l0], (l0 :: rest0), []; repeat split; try discriminate.
      rewrite app_nil_r; reflexivity.
    + exists [Heading l0; Subtitle s], (l0 :: blanks ++ [s]), rest'.
      repeat split; try discriminate.
      simpl; rewrite <- app_assoc; simpl; congruence.
  - rewrite (parse_lines_no_heading _ _ Hm).
    exists [], [], (l0 :: rest0); repeat split; reflexivity.
Qed.

Lemma scene_breaks_app (a b : list element) :
  scene_breaks (a ++ b) = scene_breaks a + scene_breaks b.
Proof.
  induction a as [|e a IH]; [reflexivity|].
  destruct e; simpl; rewrite IH; reflexivity.
Qed.

Lemma paragraph_texts_app (a b : list element) :
  paragraph_texts (a ++ b) = paragraph_texts a ++ paragraph_texts b.
Proof.
  induction a as [|e a IH]; [reflexivity|].
  destruct e; simpl; rewrite IH; reflexivity.
Qed.

Lemma scene_lines_app (a b : list str) :
  scene_lines (a ++ b) = scene_lines a + scene_lines b.
Proof. unfold scene_lines; rewrite filter_app, length_app; reflexivity. Qed.

Lemma filter_none {A : Type} (p : A -> bool) (xs : list A) :
  Forall (fun x => p x = false) xs -> filter p xs = [].
Proof.
  induction 1 as [|x xs Hx _ IH]; [reflexivity|].
  simpl; rewrite Hx; exact IH.
Qed.

Lemma filter_all {A : Type} (p : A -> bool) (xs : list A) :
  Forall (fun x => p x = true) xs -> filter p xs = xs.
Proof.
  induction 1 as [|x xs Hx _ IH]; [reflexivity|].
  simpl; rewrite Hx, IH; reflexivity.
Qed.

(** One scene break for each marker line of the body. *)
Lemma Body_scene_breaks (ls : list str) (els : list element) :
  Body ls els -> scene_breaks els = scene_lines ls.
Proof.
  induction 1 as [|l rest els Hb _ IH|l rest els Hs _ IH
                 |ts rest els Hne Ht Hhd _ IH].
  - reflexivity.
  - unfold scene_lines in *; simpl.
    rewrite (blank_not_scene l Hb); exact IH.
  - unfold scene_lines in *; simpl; rewrite Hs; simpl; congruence.
  - rewrite scene_lines_app; simpl; rewrite IH.
    unfold scene_lines at 2; rewrite filter_none; [reflexivity|].
    eapply Forall_impl; [|exact Ht]; apply text_not_scene.
Qed.

(** X3: each line that holds the marker "* * *" gives one scene break,
    but for the line that is taken as the subtitle: the scene breaks are
    as many as the marker lines when the first line is no heading, and no
    more than the marker lines in any case. *)
Theorem scene_breaks_counted (text : str) :
  exists els,
    parse_chapter text = Ok els
    /\ scene_breaks els <= scene_lines (split text 10%N)
    /\ (forall l0, hd_error (split text 10%N) = Some l0 ->
                   ~ matches_heading l0 ->
                   scene_breaks els = scene_lines (split text 10%N)).
Proof.
  rewrite parse_chapter_lines; eexists; split; [reflexivity|].
  destruct (split text 10%N) as [|l0 rest0] eqn:E.
  { exfalso; eapply split_nonempty; eassumption. }
  destruct (parse_lines_suffix l0 rest0)
    as (hdr & pre & rest & -> & Hs & _ & Hh & Hno).
  assert (Hsc : scene_lines (l0 :: rest0) = scene_lines pre + scene_lines rest)
    by (rewrite Hs; apply scene_lines_app).
  rewrite scene_breaks_app, Hh, Hsc.
  rewrite (Body_scene_breaks rest (body rest) (body_Body rest)).
  split; [simpl; lia|].
  intros l Hl Hm; inversion Hl; subst l.
  apply heading_re_false_iff in Hm.
  destruct (Hno Hm) as [_ Hpre]; rewrite Hpre; reflexivity.
Qed.

Lemma join_trailing (xs : list str) :
  xs <> [] -> concat (map (fun x => x ++ SP) xs) = join SP xs ++ SP.
Proof.
  induction xs as [|x xs IH]; [congruence|]; intros _.
  destruct xs as [|y xs]; [simpl; rewrite app_nil_r; reflexivity|].
  assert (IH' := IH ltac:(discriminate)).
  rewrite join_cons2; cbn [map concat] in IH' |- *.
  rewrite IH', <- !app_assoc; reflexivity.
Qed.

Lemma trailing_join (xs ys : list str) :
  concat (map (fun x => x ++ SP) xs) = concat (map (fun x => x ++ SP) ys) ->
  join SP xs = join SP ys.
Proof.
  destruct xs as [|x xs], ys as [|y ys]; intros H.
  - reflexivity.
  - rewrite (join_trailing (y :: ys)) in H by discriminate.
    symmetry in H; apply app_eq_nil in H; destruct H as [_ H]; discriminate.
  - rewrite (join_trailing (x :: xs)) in H by discriminate.
    apply app_eq_nil in H; destruct H as [_ H]; discriminate.
  - rewrite !join_trailing in H by discriminate.
    apply app_inv_tail in H; exact H.
Qed.

(** The paragraphs hold the stripped text lines of the body, in order,
    each followed by a space. *)
Lemma Body_paragraph_texts (ls : list str) (els : list element) :
  Body ls els ->
  concat (map (fun p => p ++ SP) (paragraph_texts els))
  = concat (map (fun l => strip l ++ SP) (filter is_text ls)).
Proof.
  induction 1 as [|l rest els Hb _ IH|l rest els Hs _ IH
                 |ts rest els Hne Ht Hhd _ IH].
  - reflexivity.
  - simpl; rewrite (blank_not_text l Hb); exact IH.
  - simpl. unfold is_text at 1; rewrite Hs; exact IH.
  - simpl paragraph_texts; simpl map; simpl concat.
    rewrite filter_app, (filter_all _ _ Ht), map_app, concat_app, IH.
    f_equal.
    rewrite <- (join_trailing (map strip ts))
      by (destruct ts; [congruence | discriminate]).
    rewrite map_map; reflexivity.
Qed.

(** X4: the paragraphs of a chapter without heading line, joined by
    single spaces, are the stripped lines of the text that are neither
    blank nor a scene break, joined by single spaces: no text is lost,
    added or moved. *)
Theorem paragraphs_keep_text (text : str) (l0 : str) :
  hd_error (split text 10%N) = Some l0 ->
  ~ matches_heading l0 ->
  exists els,
    parse_chapter text = Ok els
    /\ join SP (paragraph_texts els)
       = join SP (map strip (filter is_text (split text 10%N))).
Proof.
  intros Hl Hm; rewrite parse_chapter_lines; eexists; split; [reflexivity|].
  destruct (split text 10%N) as [|l rest0]; [discriminate|].
  inversion Hl; subst l.
  apply heading_re_false_iff in Hm.
  rewrite (parse_lines_no_heading _ _ Hm).
  apply trailing_join.
  rewrite (Body_paragraph_texts _ _ (body_Body (l0 :: rest0))).
  rewrite map_map; reflexivity.
Qed.

(** The theorem at two paragraphs around a scene break. *)
Lemma paragraphs_keep_text_example :
  exists els,
    parse_chapter (lit " one" ++ NL ++ lit "two " ++ NL ++ lit "* * *"
                   ++ NL ++ NL ++ lit "three")
    = Ok els
    /\ join SP (paragraph_texts els) = lit "one two three".
Proof.
  apply (paragraphs_keep_text
           (lit " one" ++ NL ++ lit "two " ++ NL ++ lit "* * *"
            ++ NL ++ NL ++ lit "three") (lit " one")).
  - reflexivity.
  - apply heading_re_false_iff; reflexivity.
Defined.

(** The loop reads a line through [strip] only. *)
Lemma run_strip (ls ls' : list str) (acc : list str) :
  map strip ls = map strip ls' -> run acc ls = run acc ls'.
Proof.
  revert ls' acc; induction ls as [|l ls IH]; intros [|l' ls'] acc H;
    try discriminate; [reflexivity|].
  inversion H as [[Hl Hls]].
  rewrite !run_cons; unfold is_scene, is_blank; rewrite Hl.
  rewrite !(IH ls' _ Hls); reflexivity.
Qed.

(** X5: white space at the start and at the end of the lines does not
    count in a chapter without heading line: two such texts whose lines
    are the same once stripped give the same elements. *)
Theorem outer_whitespace_ignored (text text' : str) (l0 l0' : str) :
  hd_error (split text 10%N) = Some l0 -> ~ matches_heading l0 ->
  hd_error (split text' 10%N) = Some l0' -> ~ matches_heading l0' ->
  map strip (split text 10%N) = map strip (split text' 10%N) ->
  parse_chapter text = parse_chapter text'.
Proof.
  intros Hl Hm Hl' Hm' Hs; rewrite !parse_chapter_lines; f_equal.
  destruct (split text 10%N) as [|l rest]; [discriminate|].
  destruct (split text' 10%N) as [|l' rest']; [discriminate|].
  inversion Hl; inversion Hl'; subst l l'.
  apply heading_re_false_iff in Hm, Hm'.
  rewrite (parse_lines_no_heading _ _ Hm), (parse_lines_no_heading _ _ Hm').
  apply run_strip; exact Hs.
Qed.

(** The theorem at an indented text with carriage returns. *)
Lemma outer_whitespace_example :
  parse_chapter (lit "  Hello" ++ [13%N] ++ NL ++ [9%N] ++ lit "world"
                 ++ [13%N] ++ NL ++ [13%N] ++ NL ++ lit "* * *  ")
  = parse_chapter (lit "Hello" ++ NL ++ lit "world" ++ NL ++ NL
                   ++ lit "* * *").
Proof.
  apply (outer_whitespace_ignored
           (lit "  Hello" ++ [13%N] ++ NL ++ [9%N] ++ lit "world"
            ++ [13%N] ++ NL ++ [13%N] ++ NL ++ lit "* * *  ")
           (lit "Hello" ++ NL ++ lit "world" ++ NL ++ NL ++ lit "* * *")
           (lit "  Hello" ++ [13%N]) (lit "Hello")).
  - reflexivity.
  - apply heading_re_false_iff; reflexivity.
  - reflexivity.
  - apply heading_re_false_iff; reflexivity.
  - reflexivity.
Defined.

Lemma run_nil_inv (ls : list str) (acc : list str) :
  run acc ls = [] -> acc = [] /\ Forall (fun l => is_blank l = true) ls.
Proof.
  revert acc; induction ls as [|l ls IH]; intros acc H.
  - rewrite run_nil in H; destruct acc; [auto | discriminate].
  - rewrite run_cons in H.
    destruct (is_scene l); [destruct (run acc []); discriminate|].
    destruct (is_blank l) eqn:Hb.
    + apply app_eq_nil in H; destruct H as [H1 H2].
      rewrite run_nil in H1. destruct acc; [|discriminate].
      destruct (IH [] H2) as [_ Hls]; auto.
    + destruct (IH _ H) as [Hacc _]; destruct acc; discriminate.
Qed.

Lemma run_all_blank (ls : list str) :
  Forall (fun l => is_blank l = true) ls -> run [] ls = [].
Proof.
  induction 1 as [|l ls Hl _ IH]; [reflexivity|].
  rewrite (run_blank [] l ls Hl), IH; reflexivity.
Qed.

(** X6: a chapter has no element at all exactly when every line of its
    text is blank. *)
Theorem no_element_iff_blank (text : str) :
  parse_chapter text = Ok []
  <-> Forall (fun l => is_blank l = true) (split text 10%N).
Proof.
  rewrite parse_chapter_lines.
  destruct (split text 10%N) as [|l0 rest] eqn:E.
  { exfalso; eapply split_nonempty; eassumption. }
  split.
  - intros H.
    assert (H' : parse_lines (l0 :: rest) = []) by congruence; clear H.
    destruct (heading_re l0) eqn:Hm.
    + rewrite (parse_lines_heading _ _ Hm) in H'; discriminate.
    + rewrite (parse_lines_no_heading _ _ Hm) in H'.
      apply (run_nil_inv _ _ H').
  - intros H. inversion H as [|? ? Hl0 Hrest]; subst.
    assert (Hm : heading_re l0 = false).
    { destruct (heading_re l0) eqn:Hm; [|reflexivity].
      apply heading_not_blank in Hm; congruence. }
    rewrite (parse_lines_no_heading _ _ Hm).
    unfold body; rewrite (run_all_blank _ H); reflexivity.
Qed.

End ParserMore.

(** ** The normalizer and the escaping of text *)

Module TypoMore.

Lemma typo_cons_single (x : char) (r : str) :
  x <> HYPHEN \/ hd_error r <> Some HYPHEN ->
  typographic_substitutions (x :: r) = x :: typographic_substitutions r.
Proof.
  intros H; destruct r as [|y r]; [reflexivity|].
  rewrite typo_cons2.
  destruct (char_eqb x HYPHEN) eqn:Ex, (char_eqb y HYPHEN) eqn:Ey;
    try reflexivity.
  apply char_eqb_eq in Ex, Ey; subst; simpl in H.
  destruct H as [H|H]; congruence.
Qed.

Lemma typo_pairs (k : nat) (t : str) :
  typographic_substitutions (repeat HYPHEN (2 * k) ++ t)
  = repeat EM_DASH k ++ typographic_substitutions t.
Proof.
  induction k as [|k IH]; [reflexivity|].
  replace (2 * S k) with (S (S (2 * k))) by lia.
  cbn [repeat app]; rewrite typo_cons2, !char_eqb_refl; cbn [andb].
  rewrite IH; reflexivity.
Qed.

(** X7: a run of hyphens is taken two by two from the left: an even run
    of [2 * k] hyphens becomes [k] em dashes, and an odd run of
    [2 * k + 1] becomes [k] em dashes and then one hyphen, the last of the
    run. *)
Theorem hyphen_runs :
  (forall k t,
      typographic_substitutions (repeat HYPHEN (2 * k) ++ t)
      = repeat EM_DASH k ++ typographic_substitutions t)
  /\ (forall k t,
         hd_error t <> Some HYPHEN ->
         typographic_substitutions (repeat HYPHEN (2 * k + 1) ++ t)
         = repeat EM_DASH k ++ HYPHEN :: typographic_substitutions t).
Proof.
  split; [apply typo_pairs|].
  intros k t Ht.
  replace (2 * k + 1) with (2 * k + 1) by reflexivity.
  rewrite repeat_app, <- app_assoc, typo_pairs.
  cbn [repeat app]; rewrite typo_cons_single by (right; exact Ht).
  reflexivity.
Qed.

Lemma html_escape_char (c : char) : html_escape [c] = escape_char c.
Proof.
  unfold html_escape, escape_char, replace_char, char_eqb.
  cbn [flat_map app].
  destruct (N.eqb_spec c 38); [subst; reflexivity|].
  cbn [flat_map app].
  destruct (N.eqb_spec c 60); [subst; reflexivity|].
  cbn [flat_map app].
  destruct (N.eqb_spec c 62); [subst; reflexivity|].
  cbn [flat_map app].
  destruct (N.eqb_spec c 34); [subst; reflexivity|].
  cbn [flat_map app].
  destruct (N.eqb_spec c 39); [subst; reflexivity|].
  reflexivity.
Qed.

(** [html.escape] replaces each character once: what the first
    replacement puts is not replaced again. *)
Lemma html_escape_flat_map (s : str) :
  html_escape s = flat_map escape_char s.
Proof.
  induction s as [|c s IH]; [reflexivity|].
  change (c :: s) with ([c] ++ s).
  rewrite AssemblerFacts.html_escape_app, html_escape_char, IH; reflexivity.
Qed.

Lemma escape_char_cases (x : char) :
  escape_char x = [x] /\ markup_char x = false
  \/ markup_char x = true
     /\ In (escape_char x)
           [lit "&amp;"; lit "&lt;"; lit "&gt;"; lit "&quot;"; lit "&#x27;"].
Proof.
  unfold escape_char, markup_char.
  destruct (x =? 38)%N; [right; simpl; auto|].
  destruct (x =? 60)%N; [right; simpl; auto|].
  destruct (x =? 62)%N; [right; simpl; auto|].
  destruct (x =? 34)%N; [right; simpl; auto 6|].
  destruct (x =? 39)%N; [right; simpl; auto 7|].
  left; auto.
Qed.

(** What is put for a character that is no hyphen holds no hyphen and
    is not empty. *)
Lemma escape_char_no_hyphen (x : char) :
  x <> HYPHEN -> ~ In HYPHEN (escape_char x).
Proof.
  intros Hx H.
  destruct (escape_char_cases x) as [[E _]|[_ E]].
  - rewrite E in H; destruct H as [H|[]]; congruence.
  - simpl in E.
    repeat (destruct E as [E|E];
            [rewrite <- E in H; vm_compute in H; intuition discriminate|]).
    contradiction.
Qed.

Lemma escape_char_nonempty (x : char) : escape_char x <> [].
Proof.
  destruct (escape_char_cases x) as [[E _]|[_ E]].
  - rewrite E; discriminate.
  - simpl in E.
    repeat (destruct E as [E|E]; [rewrite <- E; discriminate|]).
    contradiction.
Qed.

Lemma typo_app_no_hyphen (e b : str) :
  ~ In HYPHEN e ->
  typographic_substitutions (e ++ b) = e ++ typographic_substitutions b.
Proof.
  induction e as [|x e IH]; intros H; [reflexivity|].
  simpl app; rewrite typo_cons_single, IH; [reflexivity | |].
  - intros Hin; apply H; right; exact Hin.
  - left; intros E; apply H; left; exact E.
Qed.

Lemma escape_head (y : char) (r : str) :
  y <> HYPHEN -> hd_error (escape_char y ++ r) <> Some HYPHEN.
Proof.
  intros Hy H.
  pose proof (escape_char_no_hyphen y Hy) as Hno.
  pose proof (escape_char_nonempty y) as Hne.
  destruct (escape_char y) as [|c e]; [congruence|].
  simpl in H; inversion H; subst c; apply Hno; left; reflexivity.
Qed.

Lemma typo_escape_flat_map (t : str) :
  typographic_substitutions (flat_map escape_char t)
  = flat_map escape_char (typographic_substitutions t).
Proof.
  induction t as [| x | x y s IH1 IH2] using list_ind2.
  - reflexivity.
  - cbn [flat_map]; rewrite app_nil_r.
    change (typographic_substitutions [x]) with [x].
    cbn [flat_map]; rewrite app_nil_r.
    destruct (N.eq_dec x HYPHEN) as [->|Hx]; [reflexivity|].
    rewrite <- (app_nil_r (escape_char x)) at 1.
    rewrite (typo_app_no_hyphen _ [] (escape_char_no_hyphen x Hx)).
    apply app_nil_r.
  - rewrite typo_cons2.
    destruct (N.eq_dec x HYPHEN) as [->|Hx].
    + rewrite char_eqb_refl; cbn [andb].
      destruct (N.eq_dec y HYPHEN) as [->|Hy].
      * rewrite char_eqb_refl.
        change (flat_map escape_char (HYPHEN :: HYPHEN :: s))
          with (HYPHEN :: HYPHEN :: flat_map escape_char s).
        rewrite typo_cons2, !char_eqb_refl; cbn [andb].
        rewrite IH1; reflexivity.
      * apply char_eqb_neq in Hy; rewrite Hy; apply char_eqb_neq in Hy.
        change (flat_map escape_char (HYPHEN :: y :: s))
          with (HYPHEN :: flat_map escape_char (y :: s)).
        change (flat_map escape_char
                  (HYPHEN :: typographic_substitutions (y :: s)))
          with (HYPHEN :: flat_map escape_char
                            (typographic_substitutions (y :: s))).
        rewrite typo_cons_single, IH2; [reflexivity|].
        right; apply escape_head; exact Hy.
    + assert (E : char_eqb x HYPHEN && char_eqb y HYPHEN = false)
        by (apply char_eqb_neq in Hx; rewrite Hx; reflexivity).
      rewrite E.
      change (flat_map escape_char (x :: y :: s))
        with (escape_char x ++ flat_map escape_char (y :: s)).
      change (flat_map escape_char (x :: typographic_substitutions (y :: s)))
        with (escape_char x
              ++ flat_map escape_char (typographic_substitutions (y :: s))).
      rewrite (typo_app_no_hyphen _ _ (escape_char_no_hyphen x Hx)), IH2.
      reflexivity.
Qed.

(** X8: escaping and normalizing commute: [build_html] escapes a text
    and then normalizes it, and the other order gives the same. *)
Theorem escape_normalize_commute (t : str) :
  typographic_substitutions (html_escape t)
  = html_escape (typographic_substitutions t).
Proof. rewrite !html_escape_flat_map; apply typo_escape_flat_map. Qed.

Lemma In_typo (s : str) (c : char) :
  In c (typographic_substitutions s) -> c = EM_DASH \/ In c s.
Proof.
  induction s as [| x | x y s IH1 IH2] using list_ind2.
  - contradiction.
  - simpl; tauto.
  - rewrite typo_cons2.
    destruct (char_eqb x HYPHEN && char_eqb y HYPHEN).
    + intros [H|H]; [auto|].
      destruct (IH1 H); [auto | right; right; right; assumption].
    + intros [H|H]; [right; left; exact H|].
      destruct (IH2 H); [auto | right; right; assumption].
Qed.

Lemma In_html_escape (t : str) (c : char) :
  In c (html_escape t) ->
  c <> 60%N /\ c <> 62%N /\ c <> 34%N /\ c <> 39%N.
Proof.
  rewrite html_escape_flat_map, in_flat_map; intros (x & _ & H).
  destruct (escape_char_cases x) as [[E Hm]|[_ E]].
  - rewrite E in H; destruct H as [<-|[]].
    unfold markup_char in Hm.
    repeat (apply orb_false_iff in Hm; destruct Hm as [Hm ?]).
    repeat split; apply N.eqb_neq; assumption.
  - simpl in E.
    repeat (destruct E as [E|E];
            [rewrite <- E in H; vm_compute in H;
             repeat (destruct H as [H|H];
                     [subst c; repeat split; discriminate|]);
             contradiction|]).
    contradiction.
Qed.

(** X9: the text [build_html] embeds holds none of the characters
    [<], [>], the double quote and the apostrophe, escaped as for a title
    or escaped and normalized as for a chapter element: no text opens or
    closes a tag or an attribute value. *)
Theorem embedded_text_has_no_markup :
  (forall t c, In c (html_escape t) ->
               c <> 60%N /\ c <> 62%N /\ c <> 34%N /\ c <> 39%N)
  /\ (forall t c, In c (typographic_substitutions (html_escape t)) ->
                  c <> 60%N /\ c <> 62%N /\ c <> 34%N /\ c <> 39%N).
Proof.
  split; [apply In_html_escape|].
  intros t c H; apply In_typo in H; destruct H as [->|H].
  - repeat split; discriminate.
  - apply (In_html_escape t c H).
Qed.

End TypoMore.

(** ** The assembler: the title page and the paragraphs of a parsed chapter *)

Module AssemblerMore.

Import Assembler AssemblerSpec AssemblerFacts TypoMore.

(** The title page block comes after the parts there are. *)
Lemma title_page_app (title author : option str) (ps : list str) :
  title_page title author ps = ps ++ title_page title author [].
Proof.
  unfold title_page.
  destruct (truthy title || truthy author); [|rewrite app_nil_r; reflexivity].
  destruct title as [t|], author as [a|];
    try destruct (truthy (Some t)); try destruct (truthy (Some a));
    cbn [app]; rewrite <- ?app_assoc; reflexivity.
Qed.

(** The document: its head, the chapter containers in a row, the closing
    tags. *)
Lemma build_html_chapters (css : str) (chapters : list (list element))
    (title author : option str) :
  build_html css chapters title author
  = PREAMBLE ++ css ++ STYLE_END
    ++ concat (title_page title author [])
    ++ concat (map chapter_html chapters) ++ CLOSING.
Proof.
  unfold build_html; rewrite build_html_parts.
  unfold head_parts; rewrite title_page_app.
  rewrite !concat_app, concat_flat_map.
  cbn [concat]; rewrite !app_nil_r; cbn [app].
  rewrite <- !app_assoc.
  replace (map (fun x => concat (chapter_parts x)) chapters)
    with (map chapter_html chapters)
    by (apply map_ext; intros els; apply chapter_html_parts).
  reflexivity.
Qed.

(** X10: with no title and no author, or with empty ones, the document
    has no title page block at all: the chapters come right after the
    style block. *)
Theorem no_title_page_without_title_author (css : str)
    (chapters : list (list element)) (title author : option str) :
  truthy title = false -> truthy author = false ->
  build_html css chapters title author
  = PREAMBLE ++ css ++ STYLE_END
    ++ concat (map chapter_html chapters) ++ CLOSING.
Proof.
  intros Ht Ha; rewrite build_html_chapters.
  unfold title_page; rewrite Ht, Ha; reflexivity.
Qed.

(** The theorem at an empty title, no author and no chapter. *)
Lemma no_title_page_example :
  build_html (lit "p { margin: 0 }") [] (Some []) None
  = PREAMBLE ++ lit "p { margin: 0 }" ++ STYLE_END ++ CLOSING.
Proof.
  apply (no_title_page_without_title_author
           (lit "p { margin: 0 }") [] (Some []) None);
    reflexivity.
Defined.

Lemma html_escape_nonempty (t : str) : t <> [] -> html_escape t <> [].
Proof.
  destruct t as [|c t]; [congruence|]; intros _.
  rewrite html_escape_flat_map; cbn [flat_map].
  pose proof (escape_char_nonempty c).
  destruct (escape_char c); [congruence | discriminate].
Qed.

Lemma typo_nonempty (s : str) :
  s <> [] -> typographic_substitutions s <> [].
Proof.
  destruct s as [|x [|y s]]; [congruence | discriminate |]; intros _.
  rewrite typo_cons2.
  destruct (char_eqb x HYPHEN && char_eqb y HYPHEN); discriminate.
Qed.

(** X11: the text of a paragraph of a parsed chapter is not empty once
    escaped and normalized: no empty paragraph tag comes of a chapter
    file. *)
Theorem parsed_paragraph_rendered_nonempty (text : str)
    (els : list element) (p : str) :
  parse_chapter text = Ok els ->
  In (Paragraph p) els ->
  typographic_substitutions (html_escape p) <> [].
Proof.
  intros Hp Hin.
  destruct (ParserTheorems.parse_chapter_In text) as (els' & E & H).
  assert (els' = els) by congruence; subst els'.
  destruct (H _ Hin) as [Hne _].
  apply typo_nonempty, html_escape_nonempty, Hne.
Qed.

(** The theorem at a text of one line. *)
Lemma parsed_paragraph_example :
  parse_chapter (lit "  <b>--</b> ") = Ok [Paragraph (lit "<b>--</b>")]
  /\ typographic_substitutions (html_escape (lit "<b>--</b>")) <> [].
Proof.
  split; [reflexivity|].
  apply (parsed_paragraph_rendered_nonempty
           (lit "  <b>--</b> ") [Paragraph (lit "<b>--</b>")]
           (lit "<b>--</b>")).
  - reflexivity.
  - left; reflexivity.
Defined.

End AssemblerMore.

(** ** The style block of the template *)

Module TemplateFacts.

Import Template.

Lemma strip_prefix_app (p rest : str) : strip_prefix p (p ++ rest) = Some rest.
Proof. apply strip_prefix_Some; reflexivity. Qed.

(** A pattern whose first character comes once in it does not overlap
    itself: where it starts a text that holds it later, it starts at the
    same place or lies before the later place. *)
Lemma no_straddle (a : char) (p' pre tl rest : str) :
  ~ In a p' ->
  pre ++ (a :: p') ++ tl = (a :: p') ++ rest ->
  pre = [] \/ contains (a :: p') pre.
Proof.
  intros Ha E.
  apply app_eq_app in E; destruct E as (l & [[E1 E2]|[E1 E2]]).
  - right; exists [], l; exact E1.
  - destruct pre as [|c pre]; [left; reflexivity|right].
    simpl in E1; injection E1 as Hc Hp.
    destruct l as [|b l].
    + rewrite app_nil_r in Hp.
      exists [], []; simpl; rewrite app_nil_r; congruence.
    + simpl in E2; injection E2 as Hb Hl.
      exfalso; apply Ha; rewrite Hp; apply in_or_app; right; left.
      congruence.
Qed.

Lemma lazy_group_eq (close s : str) :
  lazy_group close s
  = match strip_prefix close s with
    | Some _ => Some []
    | None =>
        match s with
        | [] => None
        | c :: s' =>
            match lazy_group close s' with
            | Some g => Some (c :: g)
            | None => None
            end
        end
    end.
Proof. destruct s; reflexivity. Qed.

Lemma search_style_eq (content : str) :
  search_style content
  = match match_style content with
    | Some g => Some g
    | None =>
        match content with
        | [] => None
        | _ :: content' => search_style content'
        end
    end.
Proof. destruct content; reflexivity. Qed.

Lemma lazy_group_sound (close s g : str) :
  lazy_group close s = Some g -> exists post, s = g ++ close ++ post.
Proof.
  revert g; induction s as [|c s IH]; intros g; simpl.
  - destruct (strip_prefix close []) as [rest|] eqn:E; [|discriminate].
    intros H; inversion H; subst g.
    apply strip_prefix_Some in E; exists rest; exact E.
  - destruct (strip_prefix close (c :: s)) as [rest|] eqn:E.
    + intros H; inversion H; subst g.
      apply strip_prefix_Some in E; exists rest; exact E.
    + destruct (lazy_group close s) as [g'|]; [|discriminate].
      intros H; inversion H; subst g.
      destruct (IH g' eq_refl) as (post & ->).
      exists post; reflexivity.
Qed.

Lemma lazy_group_contains (close pre post : str) :
  lazy_group close (pre ++ close ++ post) <> None.
Proof.
  induction pre as [|c pre IH].
  - rewrite lazy_group_eq.
    change ([] ++ close ++ post) with (close ++ post).
    rewrite strip_prefix_app; discriminate.
  - rewrite lazy_group_eq.
    destruct (strip_prefix close ((c :: pre) ++ close ++ post));
      [discriminate|].
    change ((c :: pre) ++ close ++ post) with (c :: (pre ++ close ++ post)).
    cbv beta iota.
    destruct (lazy_group close (pre ++ close ++ post));
      [discriminate | congruence].
Qed.

(** The group is looked for up to the first closing tag: there is none
    exactly when the text holds no closing tag. *)
Lemma lazy_group_None_iff (close s : str) :
  lazy_group close s = None <-> ~ contains close s.
Proof.
  split.
  - intros H (pre & post & ->); apply (lazy_group_contains _ _ _ H).
  - intros H; destruct (lazy_group close s) as [g|] eqn:E; [|reflexivity].
    exfalso; apply H.
    destruct (lazy_group_sound _ _ _ E) as (post & ->).
    exists g, post; reflexivity.
Qed.

Lemma lazy_group_minimal (close s g : str) :
  close <> [] -> lazy_group close s = Some g -> ~ contains close g.
Proof.
  intros Hne; revert g; induction s as [|c s IH]; intros g; simpl.
  - destruct (strip_prefix close []); [|discriminate].
    intros H; inversion H; subst g; intros (a & b & E).
    destruct a; [destruct close; [congruence | discriminate] | discriminate].
  - destruct (strip_prefix close (c :: s)) as [rest|] eqn:E.
    + intros H; inversion H; subst g; intros (a & b & E').
      destruct a; [destruct close; [congruence | discriminate] | discriminate].
    + destruct (lazy_group close s) as [g'|] eqn:Eg; [|discriminate].
      intros H; inversion H; subst g; intros (a & b & E').
      destruct (lazy_group_sound _ _ _ Eg) as (post & Hs).
      destruct a as [|x a].
      * simpl in E'. rewrite Hs in E.
        change (c :: g' ++ close ++ post)
          with ((c :: g') ++ close ++ post) in E.
        rewrite E', <- app_assoc, strip_prefix_app in E; discriminate.
      * simpl in E'; inversion E'; subst.
        apply (IH _ eq_refl); exists a, b; reflexivity.
Qed.

Lemma lazy_group_exact (a : char) (p' css post : str) :
  ~ In a p' -> ~ contains (a :: p') css ->
  lazy_group (a :: p') (css ++ (a :: p') ++ post) = Some css.
Proof.
  intros Ha; induction css as [|c css IH]; intros Hno.
  - rewrite lazy_group_eq.
    change ([] ++ (a :: p') ++ post) with ((a :: p') ++ post).
    rewrite strip_prefix_app; reflexivity.
  - rewrite lazy_group_eq.
    destruct (strip_prefix (a :: p') ((c :: css) ++ (a :: p') ++ post))
      as [rest|] eqn:E.
    + apply strip_prefix_Some in E.
      destruct (no_straddle a p' (c :: css) post rest Ha E) as [H|H];
        [discriminate | contradiction].
    + change ((c :: css) ++ (a :: p') ++ post)
        with (c :: (css ++ (a :: p') ++ post)).
      cbv beta iota.
      rewrite IH; [reflexivity|].
      intros (x & y & ->); apply Hno; exists (c :: x), y; reflexivity.
Qed.

Lemma open_unbordered : ~ In 60%N (lit "style>").
Proof. vm_compute; intuition discriminate. Qed.

Lemma close_unbordered : ~ In 60%N (lit "/style>").
Proof. vm_compute; intuition discriminate. Qed.

Lemma search_style_exact (pre tl g : str) :
  ~ contains STYLE_OPEN pre ->
  lazy_group STYLE_CLOSE tl = Some g ->
  search_style (pre ++ STYLE_OPEN ++ tl) = Some g.
Proof.
  intros Hno Hg; induction pre as [|c pre IH].
  - rewrite search_style_eq.
    change ([] ++ STYLE_OPEN ++ tl) with (STYLE_OPEN ++ tl).
    unfold match_style; rewrite strip_prefix_app, Hg; reflexivity.
  - rewrite search_style_eq.
    assert (E : match_style ((c :: pre) ++ STYLE_OPEN ++ tl) = None).
    { unfold match_style.
      destruct (strip_prefix STYLE_OPEN ((c :: pre) ++ STYLE_OPEN ++ tl))
        as [rest|] eqn:E; [|reflexivity].
      apply strip_prefix_Some in E.
      destruct (no_straddle 60%N (lit "style>") (c :: pre) tl rest
                  open_unbordered E) as [H|H];
        [discriminate | contradiction]. }
    rewrite E.
    change ((c :: pre) ++ STYLE_OPEN ++ tl)
      with (c :: (pre ++ STYLE_OPEN ++ tl)).
    cbv beta iota.
    apply IH.
    intros (x & y & ->); apply Hno; exists (c :: x), y; reflexivity.
Qed.

Lemma search_style_sound (content g : str) :
  search_style content = Some g ->
  exists pre post,
    content = pre ++ STYLE_OPEN ++ g ++ STYLE_CLOSE ++ post
    /\ ~ contains STYLE_OPEN pre
    /\ ~ contains STYLE_CLOSE g.
Proof.
  assert (Hhere : forall s, match_style s = Some g ->
            exists post, s = STYLE_OPEN ++ g ++ STYLE_CLOSE ++ post
                         /\ ~ contains STYLE_CLOSE g).
  { intros s; unfold match_style.
    destruct (strip_prefix STYLE_OPEN s) as [rest|] eqn:E; [|discriminate].
    apply strip_prefix_Some in E; intros Hg.
    destruct (lazy_group_sound _ _ _ Hg) as (post & ->).
    exists post; split; [exact E|].
    apply (lazy_group_minimal STYLE_CLOSE (g ++ STYLE_CLOSE ++ post) g);
      [discriminate | exact Hg]. }
  assert (Hnil : ~ contains STYLE_OPEN []).
  { intros (a & b & E); destruct a; discriminate. }
  induction content as [|c content IH]; rewrite search_style_eq.
  - destruct (match_style []) eqn:E; discriminate.
  - destruct (match_style (c :: content)) as [g'|] eqn:E.
    + intros H; inversion H; subst.
      destruct (Hhere _ E) as (post & Hs & Hm).
      exists [], post; auto.
    + intros H; destruct (IH H) as (pre & post & -> & Hpre & Hg).
      exists (c :: pre), post; repeat split; auto.
      intros (a & b & Ea). destruct a as [|x a].
      * change ([] ++ STYLE_OPEN ++ b) with (STYLE_OPEN ++ b) in Ea.
        unfold match_style in E.
        change (c :: pre ++ STYLE_OPEN ++ g ++ STYLE_CLOSE ++ post)
          with ((c :: pre) ++ STYLE_OPEN ++ g ++ STYLE_CLOSE ++ post) in E.
        rewrite Ea, <- app_assoc, strip_prefix_app in E.
        apply lazy_group_None_iff in E; apply E.
        exists (b ++ STYLE_OPEN ++ g), post.
        rewrite <- !app_assoc; reflexivity.
      * change ((x :: a) ++ STYLE_OPEN ++ b)
          with (x :: (a ++ STYLE_OPEN ++ b)) in Ea.
        injection Ea as _ Ea.
        apply Hpre; exists a, b; exact Ea.
Qed.

Lemma search_style_found (pre g post : str) :
  search_style (pre ++ STYLE_OPEN ++ g ++ STYLE_CLOSE ++ post) <> None.
Proof.
  induction pre as [|c pre IH].
  - rewrite search_style_eq.
    change ([] ++ STYLE_OPEN ++ g ++ STYLE_CLOSE ++ post)
      with (STYLE_OPEN ++ g ++ STYLE_CLOSE ++ post).
    unfold match_style; rewrite strip_prefix_app.
    pose proof (lazy_group_contains STYLE_CLOSE g post) as H.
    destruct (lazy_group STYLE_CLOSE (g ++ STYLE_CLOSE ++ post));
      [discriminate | congruence].
  - rewrite search_style_eq.
    destruct (match_style
                ((c :: pre) ++ STYLE_OPEN ++ g ++ STYLE_CLOSE ++ post));
      [discriminate | exact IH].
Qed.

Lemma read_css_block (pre css post : str) :
  ~ contains STYLE_OPEN pre ->
  ~ contains STYLE_CLOSE css ->
  read_css_from_template (pre ++ STYLE_OPEN ++ css ++ STYLE_CLOSE ++ post)
  = css.
Proof.
  intros Hpre Hcss; unfold read_css_from_template.
  rewrite (search_style_exact pre (css ++ STYLE_CLOSE ++ post) css Hpre);
    [reflexivity|].
  apply (lazy_group_exact 60%N (lit "/style>") css post close_unbordered Hcss).
Qed.

Lemma read_css_no_close (content : str) :
  ~ contains STYLE_CLOSE (read_css_from_template content).
Proof.
  unfold read_css_from_template.
  destruct (search_style content) as [g|] eqn:E.
  - destruct (search_style_sound _ _ E) as (pre & post & _ & _ & H); exact H.
  - intros (a & b & H); destruct a; discriminate.
Qed.

(** X12: for a template with one style block, [read_css_from_template]
    returns what stands between the tags, newlines too: the text before
    the opening tag holds no opening tag and the style holds no closing
    tag. *)
Theorem style_block_extracted (pre css post : str) :
  ~ contains STYLE_OPEN pre ->
  ~ contains STYLE_CLOSE css ->
  read_css_from_template (pre ++ STYLE_OPEN ++ css ++ STYLE_CLOSE ++ post)
  = css.
Proof. apply read_css_block. Qed.

(** The theorem at a small template with a style of two lines. *)
Lemma style_block_example :
  read_css_from_template
    (lit "<html><head>" ++ STYLE_OPEN
     ++ (lit "p { margin: 0 }" ++ NL ++ lit "h1 > b { color: red }")
     ++ STYLE_CLOSE ++ lit "</head></html>")
  = lit "p { margin: 0 }" ++ NL ++ lit "h1 > b { color: red }".
Proof.
  apply (style_block_extracted
           (lit "<html><head>")
           (lit "p { margin: 0 }" ++ NL ++ lit "h1 > b { color: red }")
           (lit "</head></html>"));
    apply lazy_group_None_iff; reflexivity.
Defined.

(** X13: [read_css_from_template] returns the first style block there
    is, up to the first closing tag after its opening tag, so that the
    style it returns holds no closing tag; it returns the empty style
    when the text holds no opening tag with a closing tag after it. *)
Theorem style_block_or_empty (content : str) :
  (exists pre post,
      content = pre ++ STYLE_OPEN ++ read_css_from_template content
                ++ STYLE_CLOSE ++ post
      /\ ~ contains STYLE_OPEN pre
      /\ ~ contains STYLE_CLOSE (read_css_from_template content))
  \/ (read_css_from_template content = []
      /\ ~ exists pre css post,
             content = pre ++ STYLE_OPEN ++ css ++ STYLE_CLOSE ++ post).
Proof.
  unfold read_css_from_template.
  destruct (search_style content) as [g|] eqn:E.
  - left; apply search_style_sound; exact E.
  - right; split; [reflexivity|].
    intros (pre & css & post & ->).
    apply (search_style_found _ _ _ E).
Qed.

End TemplateFacts.

(** ** From the template and the chapter files to the document *)

Module MainFacts.

Import Template Assembler AssemblerSpec Main.

(** X14: the style block of the document is the style it was built
    with: [read_css_from_template] on the document returns the style,
    when the style holds no closing tag, as the one does that
    [read_css_from_template] returned. *)
Theorem document_style_round_trip :
  (forall css chapters title author,
      ~ contains STYLE_CLOSE css ->
      read_css_from_template (build_html css chapters title author) = css)
  /\ (forall content chapters title author,
         read_css_from_template
           (build_html (read_css_from_template content) chapters title author)
         = read_css_from_template content).
Proof.
  assert (H : forall css chapters title author,
             ~ contains STYLE_CLOSE css ->
             read_css_from_template (build_html css chapters title author)
             = css).
  { intros css chapters title author Hcss.
    rewrite AssemblerMore.build_html_chapters.
    set (P0 := firstn (length PREAMBLE - 7) PREAMBLE).
    set (E0 := skipn 8 STYLE_END).
    assert (HP : PREAMBLE = P0 ++ STYLE_OPEN) by (vm_compute; reflexivity).
    assert (HE : STYLE_END = STYLE_CLOSE ++ E0) by (vm_compute; reflexivity).
    rewrite HP, HE, <- !app_assoc.
    apply TemplateFacts.read_css_block; [|exact Hcss].
    apply TemplateFacts.lazy_group_None_iff; vm_compute; reflexivity. }
  split; [exact H|].
  intros content chapters title author.
  apply H, TemplateFacts.read_css_no_close.
Qed.

Lemma str_leb_refl (a : str) : str_leb a a = true.
Proof.
  induction a as [|x a IH]; [reflexivity|].
  simpl; rewrite N.ltb_irrefl, N.eqb_refl; exact IH.
Qed.

Lemma str_leb_total (a b : str) : str_leb a b = true \/ str_leb b a = true.
Proof.
  revert b; induction a as [|x a IH]; intros [|y b]; simpl; auto.
  destruct (N.ltb_spec x y), (N.ltb_spec y x); auto; try lia.
  assert (x = y) by lia; subst y; rewrite N.eqb_refl; apply IH.
Qed.

Lemma str_leb_antisym (a b : str) :
  str_leb a b = true -> str_leb b a = true -> a = b.
Proof.
  revert b; induction a as [|x a IH]; intros [|y b]; simpl;
    try discriminate; [reflexivity|].
  destruct (N.ltb_spec x y), (N.ltb_spec y x); try lia.
  - destruct (N.eqb_spec y x); [lia | discriminate].
  - destruct (N.eqb_spec x y); [lia | discriminate].
  - assert (x = y) by lia; subst y; rewrite N.eqb_refl.
    intros H1 H2; f_equal; apply IH; assumption.
Qed.

Lemma str_leb_trans (a b c : str) :
  str_leb a b = true -> str_leb b c = true -> str_leb a c = true.
Proof.
  revert b c; induction a as [|x a IH]; intros [|y b] [|z c]; simpl;
    try discriminate; try reflexivity.
  destruct (N.ltb_spec x y), (N.ltb_spec y z), (N.ltb_spec x z);
    try reflexivity; try lia;
    destruct (N.eqb_spec x y), (N.eqb_spec y z), (N.eqb_spec x z);
    try discriminate; try lia.
  apply IH.
Qed.

Lemma str_leb_false (a b : str) : str_leb a b = false -> str_leb b a = true.
Proof. destruct (str_leb_total a b); congruence. Qed.

Lemma insert_perm (x : str) (xs : list str) :
  Permutation (insert x xs) (x :: xs).
Proof.
  induction xs as [|y ys IH]; simpl; [apply Permutation_refl|].
  destruct (str_leb x y); [apply Permutation_refl|].
  eapply perm_trans; [apply perm_skip, IH | apply perm_swap].
Qed.

Lemma sorted_perm (xs : list str) : Permutation (sorted xs) xs.
Proof.
  induction xs as [|x xs IH]; simpl; [constructor|].
  eapply perm_trans; [apply insert_perm | apply perm_skip, IH].
Qed.

Lemma insert_ascending (x : str) (xs : list str) :
  Ascending xs -> Ascending (insert x xs).
Proof.
  induction 1 as [|y|y z zs Hyz Hzs IH]; simpl.
  - constructor.
  - destruct (str_leb x y) eqn:E; constructor;
      auto using str_leb_false; constructor.
  - destruct (str_leb x y) eqn:E.
    + constructor; [exact E | constructor; assumption].
    + simpl in IH. destruct (str_leb x z) eqn:E'.
      * constructor; [apply str_leb_false; exact E|].
        constructor; assumption.
      * constructor; assumption.
Qed.

Lemma sorted_ascending (xs : list str) : Ascending (sorted xs).
Proof.
  induction xs as [|x xs IH]; simpl; [constructor|].
  apply insert_ascending; exact IH.
Qed.

Lemma insert_comm (x y : str) (l : list str) :
  insert x (insert y l) = insert y (insert x l).
Proof.
  induction l as [|z l IH]; simpl.
  - destruct (str_leb x y) eqn:Exy, (str_leb y x) eqn:Eyx; try reflexivity.
    + rewrite (str_leb_antisym x y Exy Eyx); reflexivity.
    + destruct (str_leb_total x y); congruence.
  - destruct (str_leb y z) eqn:Eyz, (str_leb x z) eqn:Exz; simpl.
    + destruct (str_leb x y) eqn:Exy, (str_leb y x) eqn:Eyx;
        rewrite ?Exz, ?Eyz; try reflexivity.
      * rewrite (str_leb_antisym x y Exy Eyx); reflexivity.
      * destruct (str_leb_total x y); congruence.
    + rewrite Eyz.
      destruct (str_leb x y) eqn:Exy; [|rewrite Exz; reflexivity].
      rewrite (str_leb_trans x y z Exy Eyz) in Exz; discriminate.
    + rewrite Exz.
      destruct (str_leb y x) eqn:Eyx; [|rewrite Eyz; reflexivity].
      rewrite (str_leb_trans y x z Eyx Exz) in Eyz; discriminate.
    + rewrite Exz, Eyz, IH; reflexivity.
Qed.

(** The sorted list is the list of the strings there are, whatever their
    order was. *)
Lemma sorted_Permutation (xs ys : list str) :
  Permutation xs ys -> sorted xs = sorted ys.
Proof.
  induction 1 as [|x l l' _ IH|x y l|l l' l'' _ IH1 _ IH2]; simpl.
  - reflexivity.
  - rewrite IH; reflexivity.
  - apply insert_comm.
  - congruence.
Qed.

Lemma sorted_fixed (ys : list str) : Ascending ys -> sorted ys = ys.
Proof.
  induction 1 as [|y|x y ys Hxy _ IH]; try reflexivity.
  change (sorted (x :: y :: ys)) with (insert x (sorted (y :: ys))).
  rewrite IH; simpl; rewrite Hxy; reflexivity.
Qed.

Lemma map_result_parse (read : str -> str) (fs : list str) :
  map_result (fun f => parse_chapter (read f)) fs
  = Ok (map (fun f => parse_lines (split (read f) 10%N)) fs).
Proof.
  induction fs as [|f fs IH]; [reflexivity|].
  simpl; rewrite parse_chapter_lines, IH; reflexivity.
Qed.

Lemma main_sorted (css : str) (globbed : list str) (read : str -> str)
    (title author : option str) :
  main css globbed read title author
  = match sorted globbed with
    | [] => Ok (SysExit 1)
    | _ :: _ =>
        Ok (WritePdf
              (build_html css
                 (map (fun f => parse_lines (split (read f) 10%N))
                      (sorted globbed))
                 title author))
    end.
Proof.
  unfold main; destruct (sorted globbed) as [|f fs]; [reflexivity|].
  rewrite map_result_parse; reflexivity.
Qed.



(** X16: the chapters of the document are the chapter files in the
    ascending order of their paths, each file once, whatever the order
    [glob.glob] returned the paths in: any other order of the same paths
    gives the same outcome. *)
Theorem main_chapters_by_path (css : str) (globbed : list str)
    (read : str -> str) (title author : option str) :
  exists files,
    Permutation files globbed
    /\ Ascending files
    /\ (files <> [] ->
        exists chapters,
          map_result (fun f => parse_chapter (read f)) files = Ok chapters
          /\ main css globbed read title author
             = Ok (WritePdf (build_html css chapters title author)))
    /\ (forall globbed',
           Permutation globbed globbed' ->
           main css globbed' read title author
           = main css globbed read title author).
Proof.
  exists (sorted globbed); repeat apply conj.
  - apply sorted_perm.
  - apply sorted_ascending.
  - intros Hne; eexists; split; [apply map_result_parse|].
    rewrite main_sorted.
    destruct (sorted globbed); [congruence | reflexivity].
  - intros globbed' Hp.
    rewrite !main_sorted, (sorted_Permutation _ _ Hp); reflexivity.
Qed.

(** X17: [sorted] gives the one ascending list of the strings of its
    argument: an ascending list of the same strings is the result. *)
Theorem sorted_is_the_ascending_list (xs ys : list str) :
  Permutation xs ys -> Ascending ys -> sorted xs = ys.
Proof.
  intros Hp Ha.
  rewrite (sorted_Permutation _ _ Hp); apply sorted_fixed; exact Ha.
Qed.

(** The theorem at three chapter files found in no order. *)
Lemma sorted_example :
  sorted [lit "chapter_10.md"; lit "chapter_02.md"; lit "chapter_1.md"]
  = [lit "chapter_02.md"; lit "chapter_1.md"; lit "chapter_10.md"].
Proof.
  apply (sorted_is_the_ascending_list
           [lit "chapter_10.md"; lit "chapter_02.md"; lit "chapter_1.md"]
           [lit "chapter_02.md"; lit "chapter_1.md"; lit "chapter_10.md"]).
  - eapply perm_trans; [apply perm_swap|].
    apply perm_skip, perm_swap.
  - repeat constructor.
Defined.

End MainFacts.
